(** * CoDiPack: the Jacobian base tape and the matrix-matrix-multiplication
      low level function

    A shallow embedding of
    - [include/codi/tapes/jacobianBaseTape.hpp] (module [JacobianBaseTape]):
      the adjoint vector, its two [gradient] accessors, [clearAdjoints],
      [deleteAdjointVector], [setParameter] and the two evaluation entry
      points with [checkAdjointSize] / [resizeAdjointsVector];
    - [include/codi/tools/lowlevelFunctions/linearAlgebra/matrixMatrixMultiplication.hpp]
      (module [ExtFunc_matrixMatrixMultiplication]): [callPrimal],
      [callReverse], [registerOnTape], [store] and the data accesses of
      [forward], [reverse] and [del]. *)

From stdpp Require Import base numbers list.

(** ** Machine integers

    [Identifier] is [int] for every tape of the library (the declaration
    default is [IndexManagerInterface<int>]); [size_t] has 64 bits.  Both
    are carried by [Z]; the conversions are written out. *)

Module MachineInt.

Local Open Scope Z_scope.

Definition Int_min : Z := - 2 ^ 31.
Definition Int_max : Z := 2 ^ 31 - 1.

(** Conversion of an integer value to [int] (two's complement). *)
Definition wrap_int (z : Z) : Z := (z + 2 ^ 31) mod 2 ^ 32 - 2 ^ 31.

(** [(Identifier) v.size()]: a [size_t] converted to [int]. *)
Definition Identifier_of_size_t (n : nat) : Z := wrap_int (Z.of_nat n).

(** An [int] passed where a [size_t] is expected. *)
Definition size_t_of_int (z : Z) : nat := Z.to_nat (z mod 2 ^ 64).

(** [a + b] on [int].  (An overflowing signed addition is undefined in C++;
    the wrapped value is what the targets compute.  The statements below keep
    the operands in the range where the sum is exact.) *)
Definition int_add (a b : Z) : Z := wrap_int (a + b).

Definition is_int (z : Z) : Prop := Int_min <= z <= Int_max.

End MachineInt.

(** ** The Jacobian base tape (jacobianBaseTape.hpp) *)

Module JacobianBaseTape.

Import MachineInt.

(** The template parameters of [JacobianBaseTape<T_TapeTypes, T_Impl>] that
    the members below use: the gradient type with its value-initialised
    element [Gradient()], the position type, and the two sweeps of the
    implementation, [evaluateForward(start, end, data)] and
    [evaluate(start, end, data)].  The sweeps are handed [adjoints.data()],
    a plain pointer to the slots: they may overwrite slots but cannot change
    how many there are, which is what the two length laws record. *)
Class TapeImpl := {
  Gradient : Type;
  Gradient_zero : Gradient;
  Position : Type;
  Impl_evaluateForward : Position -> Position -> list Gradient -> list Gradient;
  Impl_evaluate : Position -> Position -> list Gradient -> list Gradient;
  Impl_evaluateForward_length s e d :
    length (Impl_evaluateForward s e d) = length d;
  Impl_evaluate_length s e d :
    length (Impl_evaluate s e d) = length d;
}.

Section Members.
Context `{TapeImpl}.

(** The state the members touch: the member [adjoints] and what
    [indexManager.get().getLargestCreatedIndex()] currently returns. *)
Record Tape := mkTape {
  adjoints : list Gradient;
  largestCreatedIndex : Z;
}.

(** Modelled from the spec: [LocalAdjoints] (misc/localAdjoints.hpp) is not
    part of the sources; it is the dense array of gradients indexed by
    identifier, here a list.  [size()] is the number of slots. *)
Definition LocalAdjoints_size (a : list Gradient) : nat := length a.

(** Modelled from the spec: [LocalAdjoints::operator[]] is not part of the
    sources; it indexes the array without a bounds check.  [None] stands for
    an index outside the bounds, which includes every negative index. *)
Definition LocalAdjoints_at (a : list Gradient) (identifier : Z) : option Gradient :=
  if (identifier <? 0)%Z then None else a !! Z.to_nat identifier.

(** Modelled from the spec: [LocalAdjoints::resize(n)] is not part of the
    sources; the array keeps its first [n] slots and grows by
    value-initialised slots. *)
Definition LocalAdjoints_resize (a : list Gradient) (n : nat) : list Gradient :=
  resize n Gradient_zero a.

(** Modelled from the spec: [LocalAdjoints::zeroAll()] is not part of the
    sources; it resets every slot to the additive identity without changing
    the capacity. *)
Definition LocalAdjoints_zeroAll (a : list Gradient) : list Gradient :=
  (fun _ => Gradient_zero) <$> a.

(** Constructor: [adjoints(1)]. *)
Definition JacobianBaseTape_new (largest : Z) : Tape :=
  mkTape (replicate 1 Gradient_zero) largest.

(** [resizeAdjointsVector()] *)
Definition resizeAdjointsVector (t : Tape) : Tape :=
  mkTape
    (LocalAdjoints_resize (adjoints t)
       (size_t_of_int (int_add (largestCreatedIndex t) 1)))
    (largestCreatedIndex t).

(** [checkAdjointSize(identifier)] *)
Definition checkAdjointSize (t : Tape) (identifier : Z) : Tape :=
  if (Identifier_of_size_t (LocalAdjoints_size (adjoints t)) <=? identifier)%Z
  then resizeAdjointsVector t
  else t.

(** [Gradient& gradient(Identifier const&)]: the tape after the size check
    and the slot the returned reference designates ([None]: the reference
    points outside the vector). *)
Definition gradient (t : Tape) (identifier : Z) : Tape * option nat :=
  let t' := checkAdjointSize t identifier in
  (t', match LocalAdjoints_at (adjoints t') identifier with
       | Some _ => Some (Z.to_nat identifier)
       | None => None
       end).

(** [Gradient const& gradient(Identifier const&) const]: the value read
    ([None]: the read is outside the vector).  The member is [const]; the
    tape is an argument only. *)
Definition gradient_const (t : Tape) (identifier : Z) : option Gradient :=
  if (Identifier_of_size_t (LocalAdjoints_size (adjoints t)) <? identifier)%Z
  then LocalAdjoints_at (adjoints t) 0
  else LocalAdjoints_at (adjoints t) identifier.

(** [clearAdjoints()] *)
Definition clearAdjoints (t : Tape) : Tape :=
  mkTape (LocalAdjoints_zeroAll (adjoints t)) (largestCreatedIndex t).

(** [deleteAdjointVector()] *)
Definition deleteAdjointVector (t : Tape) : Tape :=
  mkTape (LocalAdjoints_resize (adjoints t) 1) (largestCreatedIndex t).

(** [getParameter(TapeParameters::AdjointSize)] *)
Definition getParameter_AdjointSize (t : Tape) : nat :=
  LocalAdjoints_size (adjoints t).

(** [setParameter(TapeParameters::AdjointSize, value)] *)
Definition setParameter_AdjointSize (t : Tape) (value : nat) : Tape :=
  mkTape (LocalAdjoints_resize (adjoints t) value) (largestCreatedIndex t).

(** [evaluateForward(start, end)] *)
Definition evaluateForward (t : Tape) (start end_ : Position) : Tape :=
  let t' := checkAdjointSize t (largestCreatedIndex t) in
  mkTape (Impl_evaluateForward start end_ (adjoints t')) (largestCreatedIndex t').

(** [evaluate(start, end)] *)
Definition evaluate (t : Tape) (start end_ : Position) : Tape :=
  let t' := checkAdjointSize t (largestCreatedIndex t) in
  mkTape (Impl_evaluate start end_ (adjoints t')) (largestCreatedIndex t').

(** The data the sweep of an evaluation call is started on. *)
Definition evaluation_data (t : Tape) : list Gradient :=
  adjoints (checkAdjointSize t (largestCreatedIndex t)).

(** Calls on a tape, for statements about every sequence of them.
    [IndexManagerCreate z] stands for the recording that happens between the
    calls: the index manager has issued identifiers and now reports [z] as
    the largest one. *)
Inductive Call :=
  | Call_deleteAdjointVector
  | Call_clearAdjoints
  | Call_evaluateForward (start end_ : Position)
  | Call_evaluate (start end_ : Position)
  | Call_gradient (identifier : Z)
  | IndexManagerCreate (z : Z).

Definition call (t : Tape) (c : Call) : Tape :=
  match c with
  | Call_deleteAdjointVector => deleteAdjointVector t
  | Call_clearAdjoints => clearAdjoints t
  | Call_evaluateForward s e => evaluateForward t s e
  | Call_evaluate s e => evaluate t s e
  | Call_gradient i => fst (gradient t i)
  | IndexManagerCreate z => mkTape (adjoints t) z
  end.

Definition calls (t : Tape) (cs : list Call) : Tape := foldl call t cs.

(** The index manager reports a non-negative [int] and has not exhausted the
    identifiers: one more than the largest created index is still an
    [int]. *)
Definition index_ok (z : Z) : Prop := (0 <= z < Int_max)%Z.

Definition Call_ok (c : Call) : Prop :=
  match c with
  | IndexManagerCreate z => index_ok z
  | _ => True
  end.

End Members.

(** An instance for examples: integer gradients; the forward sweep leaves the
    data as it is, the reverse sweep adds slot by slot the value of the last
    slot. *)
#[export] Program Instance ZTape : TapeImpl := {|
  Gradient := Z;
  Gradient_zero := 0%Z;
  Position := nat;
  Impl_evaluateForward := fun _ _ d => d;
  Impl_evaluate := fun _ _ d => (fun g => (g + default 0 (last d))%Z) <$> d;
|}.
Next Obligation. reflexivity. Qed.
Next Obligation. intros. apply length_fmap. Qed.

Definition ZTape_of (a : list Z) (largest : Z) : @Tape ZTape :=
  @mkTape ZTape a largest.

End JacobianBaseTape.

(** ** Dense matrices over a plain array (Eigen, as the low level function
       uses it) *)

Module Eigen.

(** [Eigen::StorageOptions], the template parameter [eigenStore]. *)
Inductive StorageOptions := RowMajor | ColMajor.

Section Expressions.
Context {T : Type}.

(** An Eigen expression is evaluated coefficient by coefficient. *)
Definition Expr := nat -> nat -> T.

(** Position of coefficient [(i, j)] in the array of a [rows] x [cols] map,
    and the coefficient an array position holds. *)
Definition storage_index (s : StorageOptions) (rows cols i j : nat) : nat :=
  match s with
  | RowMajor => i * cols + j
  | ColMajor => j * rows + i
  end.

Definition storage_row (s : StorageOptions) (rows cols p : nat) : nat :=
  match s with
  | RowMajor => p / cols
  | ColMajor => p mod rows
  end.

Definition storage_col (s : StorageOptions) (rows cols p : nat) : nat :=
  match s with
  | RowMajor => p mod cols
  | ColMajor => p / rows
  end.

(** Modelled from the spec: [mapEigen] (eigenWrappers.hpp) is not part of
    the sources; [mapEigen<eigenStore>(data, rows, cols)] views a plain array
    as a [rows] x [cols] matrix in the given storage order.  Here it is read
    as an expression; [dflt] stands for a read outside the array. *)
Definition mapEigen (s : StorageOptions) (dflt : T) (data : list T)
    (rows cols : nat) : Expr :=
  fun i j => nth (storage_index s rows cols i j) data dflt.

(** [mapEigen<eigenStore>(data, rows, cols) = e]: the first [rows * cols]
    positions of the array are overwritten in place. *)
Definition assign (s : StorageOptions) (data : list T) (rows cols : nat)
    (e : Expr) : list T :=
  imap (fun p x =>
          if (p <? rows * cols)%nat
          then e (storage_row s rows cols p) (storage_col s rows cols p)
          else x) data.

Definition transpose (e : Expr) : Expr := fun i j => e j i.

End Expressions.

End Eigen.

(** ** The low level function (matrixMatrixMultiplication.hpp) *)

Module ExtFunc_matrixMatrixMultiplication.

Import Eigen.

(** [Type::Real] (also the gradient type of the tape) with the arithmetic the
    derivative code applies to it.  No law is assumed of the operations. *)
Class RealOps := {
  Real : Type;
  Real_zero : Real;
  Real_add : Real -> Real -> Real;
  Real_mul : Real -> Real -> Real;
}.

(** The callbacks of this structure and the registry entry made of them. *)
Inductive Callback := Callback_reverse | Callback_forward | Callback_del.

Record LowLevelFunctionEntry := Entry {
  entry_reverse : option Callback;
  entry_forward : option Callback;
  entry_primal : option Callback;
  entry_del : option Callback;
}.

(** What the function takes from headers that are not part of the sources
    (config.h, lowLevelFunctionCreationHelper.hpp and the tape): the sentinel
    [Config::LowLevelFunctionTokenInvalid], the token
    [registerLowLevelFunction] returns given the entries registered so far,
    and the byte counts of [countActivitySize] and of the [countSize] members
    of the two store traits (fixed and dynamic share). *)
Class LowLevelFunctionEnv := {
  LowLevelFunctionTokenInvalid : Z;
  registerLowLevelFunction_token : list LowLevelFunctionEntry -> Z;
  countActivitySize : nat;
  ActiveStoreTrait_countSize : nat -> bool * bool * bool * bool * bool -> nat * nat;
  PassiveStoreTrait_countSize : nat -> bool -> nat * nat;
}.

(** Data accesses through a [ByteDataStore]: which segment, and which
    argument's data. *)
Inductive Segment := Fixed | Dynamic.
Inductive Field := Activity | Arg_A | Arg_B | Arg_R | Arg_n | Arg_k | Arg_m.
Definition Access : Type := Segment * Field.

#[export] Instance Segment_eq_dec : EqDecision Segment.
Proof. solve_decision. Defined.
#[export] Instance Field_eq_dec : EqDecision Field.
Proof. solve_decision. Defined.

(** The fields a sequence of accesses touches in one segment, in order. *)
Definition segment_order (seg : Segment) (l : list Access) : list Field :=
  snd <$> filter (fun a => fst a = seg) l.

(** Every access to the fixed segment comes before every access to the
    dynamic one. *)
Fixpoint fixed_before_dynamic (l : list Access) : bool :=
  match l with
  | [] => true
  | (Fixed, _) :: l' => fixed_before_dynamic l'
  | (Dynamic, _) :: l' =>
      forallb (fun a => bool_decide (fst a = Dynamic)) l'
  end.

(** [LLFH::storeActivity] / [LLFH::restoreActivity] on the fixed store. *)
Definition storeActivity : list Access := [(Fixed, Activity)].
Definition restoreActivity : list Access := [(Fixed, Activity)].

(** [Trait::store(fixed, dynamic, ...)]: one call serves both stores; with
    null stores (the passive evaluation) nothing is written. *)
Definition Trait_store (stores : bool) (f : Field) : list Access :=
  if stores then [(Fixed, f); (Dynamic, f)] else [].

Definition Trait_restoreFixed (f : Field) : list Access := [(Fixed, f)].
Definition Trait_restoreDynamic (f : Field) : list Access := [(Dynamic, f)].

Section Function.
Context `{RealOps} `{LowLevelFunctionEnv}.
Variable eigenStore : StorageOptions.

(** [Type]: an active value (activeType.hpp), primal value and identifier. *)
Record ActiveType := mkActive {
  primalValue : Real;
  identifier : Z;
}.

(** The products of the derivative code, coefficient by coefficient. *)
Definition dot (f : nat -> Real) (inner : nat) : Real :=
  foldl (fun acc l => Real_add acc (f l)) Real_zero (seq 0 inner).

Definition product (x y : @Expr Real) (inner : nat) : @Expr Real :=
  fun i j => dot (fun l => Real_mul (x i l) (y l j)) inner.

Definition plus (x y : @Expr Real) : @Expr Real :=
  fun i j => Real_add (x i j) (y i j).

Definition mapReal := mapEigen eigenStore Real_zero.
Definition mapId := mapEigen eigenStore 0%Z.

(** [.rowwise().any()] and [.colwise().any()] of an identifier matrix with
    [inner] columns, respectively rows: is some coefficient non-zero. *)
Definition rowwise_any (x : @Expr Z) (inner : nat) : nat -> bool :=
  fun i => existsb (fun l => negb (x i l =? 0)%Z) (seq 0 inner).

Definition colwise_any (x : @Expr Z) (inner : nat) : nat -> bool :=
  fun j => existsb (fun l => negb (x l j =? 0)%Z) (seq 0 inner).

(** [callForward] *)
Definition callForward (A : list Real) (active_A : bool) (A_d_in : list Real)
    (B : list Real) (active_B : bool) (B_d_in : list Real)
    (R R_d_out : list Real) (n k m : nat) : list Real * list Real :=
  let R_d_out1 :=
    if active_A
    then assign eigenStore R_d_out n m
           (plus (mapReal R_d_out n m)
              (product (mapReal A_d_in n k) (mapReal B k m) k))
    else R_d_out in
  let R_d_out2 :=
    if active_B
    then assign eigenStore R_d_out1 n m
           (plus (mapReal R_d_out1 n m)
              (product (mapReal A n k) (mapReal B_d_in k m) k))
    else R_d_out1 in
  (assign eigenStore R n m (product (mapReal A n k) (mapReal B k m) k),
   R_d_out2).

(** [callReverse]: the two gradient arrays after the call. *)
Definition callReverse (A : list Real) (active_A : bool) (A_b_in : list Real)
    (B : list Real) (active_B : bool) (B_b_in : list Real)
    (R R_b_out : list Real) (n k m : nat) : list Real * list Real :=
  let A_b_in' :=
    if active_A
    then assign eigenStore A_b_in n k
           (plus (mapReal A_b_in n k)
              (product (mapReal R_b_out n m) (transpose (mapReal B k m)) m))
    else A_b_in in
  let B_b_in' :=
    if active_B
    then assign eigenStore B_b_in k m
           (plus (mapReal B_b_in k m)
              (product (transpose (mapReal A n k)) (mapReal R_b_out n m) n))
    else B_b_in in
  (A_b_in', B_b_in').

(** [callPrimal]: the result array and the output identifier array after the
    call. *)
Definition callPrimal (active : bool) (A : list Real) (active_A : bool)
    (A_i_in : list Z) (B : list Real) (active_B : bool) (B_i_in : list Z)
    (R : list Real) (R_i_out : list Z) (n k m : nat) : list Real * list Z :=
  let R' := assign eigenStore R n m (product (mapReal A n k) (mapReal B k m) k) in
  let R_i_out' :=
    if active then
      let r0 := assign eigenStore R_i_out n m (fun _ _ => 0%Z) in
      let r1 :=
        if active_A
        then assign eigenStore r0 n m
               (fun i j =>
                  (mapId r0 n m i j + Z.b2z (rowwise_any (mapId A_i_in n k) k i))%Z)
        else r0 in
      if active_B
      then assign eigenStore r1 n m
             (fun i j =>
                (mapId r1 n m i j + Z.b2z (colwise_any (mapId B_i_in k m) k j))%Z)
      else r1
    else R_i_out in
  (R', R_i_out').

(** *** Recording *)

(** The tape as the function sees it: the static member [ID], the entries
    given to [registerLowLevelFunction], the records pushed with
    [pushLowLevelFunction] (token, fixed size, dynamic size), the accesses
    made to their byte stores, and the largest identifier created. *)
Record TapeState := mkState {
  ID : Z;
  registeredFunctions : list LowLevelFunctionEntry;
  lowLevelFunctions : list (Z * nat * nat);
  byteData : list Access;
  indexManager_largest : Z;
}.

(** [registerOnTape] *)
Definition registerOnTape (st : TapeState) : TapeState :=
  if (LowLevelFunctionTokenInvalid =? ID st)%Z
  then mkState
         (registerLowLevelFunction_token (registeredFunctions st))
         (registeredFunctions st ++
            [Entry (Some Callback_reverse) (Some Callback_forward) None
               (Some Callback_del)])
         (lowLevelFunctions st) (byteData st) (indexManager_largest st)
  else st.

(** Modelled from the spec: [ActiveStoreTrait::isActive]
    (lowLevelFunctionCreationHelper.hpp) is not part of the sources; an
    argument is active if at least one of its elements carries a non-reserved
    identifier. *)
Definition isActive (value : list ActiveType) (size : nat) : bool :=
  existsb (fun v => negb (identifier v =? 0)%Z) (take size value).

(** Modelled from the spec: [LLFH::createStoreActions] is not part of the
    sources; the actions are kept as the five flags they are made from. *)
Definition createStoreActions (tapeActive isInput isOutput isInputActive
    primalRequired : bool) : bool * bool * bool * bool * bool :=
  (tapeActive, isInput, isOutput, isInputActive, primalRequired).

(** Modelled from the spec: [ActiveStoreTrait::store] is not part of the
    sources; the store of an input holds the primal values of its
    elements. *)
Definition input_value (value : list ActiveType) (size : nat) : list Real :=
  primalValue <$> take size value.

(** Modelled from the spec: [ActiveStoreTrait::store] is not part of the
    sources; the store of an active input holds the identifiers of its
    elements (no identifier array for a passive input). *)
Definition input_identifierIn (value : list ActiveType) (size : nat)
    (isInputActive : bool) : list Z :=
  if isInputActive then identifier <$> take size value else [].

(** Modelled from the spec: [ActiveStoreTrait::setExternalFunctionOutput] is
    not part of the sources; every output receives its new primal value, and
    on an active tape an output whose entry in the identifier array is not
    zero is assigned a fresh identifier (the next one of the index manager);
    the other outputs are passive. *)
Fixpoint setExternalFunctionOutput (tapeActive : bool) (value : list ActiveType)
    (size : nat) (identifiers : list Z) (primals : list Real) (largest : Z)
    {struct size} : list ActiveType * Z :=
  match size, value with
  | S size', _ :: value' =>
      let fresh :=
        tapeActive && negb (hd 0%Z identifiers =? 0)%Z in
      let largest' := if fresh then (largest + 1)%Z else largest in
      let '(rest, l) :=
        setExternalFunctionOutput tapeActive value' size' (tl identifiers)
          (tl primals) largest' in
      (mkActive (hd Real_zero primals) (if fresh then largest' else 0%Z) :: rest, l)
  | _, _ => (value, largest)
  end.

Definition add_sizes (a b : nat * nat) : nat * nat :=
  (fst a + fst b, snd a + snd b).

(** [store]: the tape and the array [R] after the call. *)
Definition store (A B R : list ActiveType) (n k m : nat) (st : TapeState)
    : TapeState * list ActiveType :=
  let active_A := isActive A (n * k) in
  let active_B := isActive B (k * m) in
  let active := active_A || active_B in
  let actions_A := createStoreActions active true false active_A active_B in
  let actions_B := createStoreActions active true false active_B active_A in
  let actions_R := createStoreActions active false true false true in
  let st1 :=
    if active then
      let st_r := registerOnTape st in
      let sizes :=
        foldl add_sizes (2 * countActivitySize, 0)
          [ActiveStoreTrait_countSize (n * k) actions_A;
           ActiveStoreTrait_countSize (k * m) actions_B;
           ActiveStoreTrait_countSize (n * m) actions_R;
           PassiveStoreTrait_countSize 1 true;
           PassiveStoreTrait_countSize 1 true;
           PassiveStoreTrait_countSize 1 true] in
      mkState (ID st_r) (registeredFunctions st_r)
        (lowLevelFunctions st_r ++ [(ID st_r, fst sizes, snd sizes)])
        (byteData st_r ++
           storeActivity ++
           Trait_store true Arg_A ++ Trait_store true Arg_B ++
           Trait_store true Arg_R ++
           Trait_store true Arg_n ++ Trait_store true Arg_k ++
           Trait_store true Arg_m ++
           storeActivity)
        (indexManager_largest st_r)
    else
      mkState (ID st) (registeredFunctions st) (lowLevelFunctions st)
        (byteData st ++
           Trait_store false Arg_A ++ Trait_store false Arg_B ++
           Trait_store false Arg_R)
        (indexManager_largest st) in
  let '(R_value, R_i_out) :=
    callPrimal active (input_value A (n * k)) active_A
      (input_identifierIn A (n * k) active_A)
      (input_value B (k * m)) active_B
      (input_identifierIn B (k * m) active_B)
      (replicate (n * m) Real_zero) (replicate (n * m) 0%Z) n k m in
  let '(R', largest) :=
    setExternalFunctionOutput active R (n * m) R_i_out R_value
      (indexManager_largest st1) in
  (mkState (ID st1) (registeredFunctions st1) (lowLevelFunctions st1)
     (byteData st1) largest, R').

(** The accesses [store] makes to the byte stores when it records. *)
Definition store_accesses : list Access :=
  storeActivity ++
  Trait_store true Arg_A ++ Trait_store true Arg_B ++ Trait_store true Arg_R ++
  Trait_store true Arg_n ++ Trait_store true Arg_k ++ Trait_store true Arg_m ++
  storeActivity.

(** *** Replay *)

(** The accesses of [forward], of [reverse] and of [del], in the order of
    their calls. *)
Definition forward_accesses : list Access :=
  restoreActivity ++
  Trait_restoreFixed Arg_A ++ Trait_restoreFixed Arg_B ++
  Trait_restoreFixed Arg_R ++
  Trait_restoreFixed Arg_n ++ Trait_restoreFixed Arg_k ++
  Trait_restoreFixed Arg_m ++
  restoreActivity ++
  Trait_restoreDynamic Arg_A ++ Trait_restoreDynamic Arg_B ++
  Trait_restoreDynamic Arg_R ++
  Trait_restoreDynamic Arg_n ++ Trait_restoreDynamic Arg_k ++
  Trait_restoreDynamic Arg_m.

Definition reverse_accesses : list Access :=
  restoreActivity ++
  Trait_restoreFixed Arg_m ++ Trait_restoreFixed Arg_k ++
  Trait_restoreFixed Arg_n ++
  Trait_restoreFixed Arg_R ++ Trait_restoreFixed Arg_B ++
  Trait_restoreFixed Arg_A ++
  restoreActivity ++
  Trait_restoreDynamic Arg_m ++ Trait_restoreDynamic Arg_k ++
  Trait_restoreDynamic Arg_n ++
  Trait_restoreDynamic Arg_R ++ Trait_restoreDynamic Arg_B ++
  Trait_restoreDynamic Arg_A.

Definition del_accesses : list Access :=
  restoreActivity ++
  Trait_restoreFixed Arg_m ++ Trait_restoreFixed Arg_k ++
  Trait_restoreFixed Arg_n ++
  Trait_restoreFixed Arg_R ++ Trait_restoreFixed Arg_B ++
  Trait_restoreFixed Arg_A ++
  restoreActivity ++
  Trait_restoreDynamic Arg_m ++ Trait_restoreDynamic Arg_k ++
  Trait_restoreDynamic Arg_n ++
  Trait_restoreDynamic Arg_R ++ Trait_restoreDynamic Arg_B ++
  Trait_restoreDynamic Arg_A.

(** What the restore calls of a replay leave in the local variables. *)
Record ArgumentStore := mkStore {
  value : list Real;
  identifierIn : list Z;
  gradientIn : list Real;
  identifierOut : list Z;
  gradientOut : list Real;
}.

Record Restored := mkRestored {
  active_A : bool;
  active_B : bool;
  A_store : ArgumentStore;
  B_store : ArgumentStore;
  R_store : ArgumentStore;
  n : nat;
  k : nat;
  m : nat;
}.

(** Modelled from the spec: the vector access interface is not part of the
    sources; a replay reads the adjoint vector by identifier.  An identifier
    outside the vector reads as zero. *)
Definition adjoint_read (adjoints : list Real) (id : Z) : Real :=
  if (id <? 0)%Z then Real_zero else nth (Z.to_nat id) adjoints Real_zero.

(** Modelled from the spec: the vector access interface is not part of the
    sources; a replay writes the adjoint vector by identifier.  An identifier
    outside the vector is not written. *)
Definition adjoint_write (adjoints : list Real) (id : Z) (g : Real) : list Real :=
  if (id <? 0)%Z then adjoints else <[Z.to_nat id := g]> adjoints.

(** Modelled from the spec: [ActiveStoreTrait::getGradients] is not part of
    the sources; it reads the gradients of the given identifiers from the
    adjoint vector, one after the other, and with [reset] clears each slot
    after reading it (the output's adjoint is cleared after distribution). *)
Fixpoint getGradients_loop (reset : bool) (identifiers : list Z)
    (adjoints : list Real) : list Real * list Real :=
  match identifiers with
  | [] => ([], adjoints)
  | id :: identifiers' =>
      let g := adjoint_read adjoints id in
      let adjoints1 := if reset then adjoint_write adjoints id Real_zero else adjoints in
      let '(gs, adjoints2) := getGradients_loop reset identifiers' adjoints1 in
      (g :: gs, adjoints2)
  end.

(** Modelled from the spec: [getGradients] for the first [size]
    identifiers. *)
Definition getGradients (adjoints : list Real) (size : nat) (reset : bool)
    (identifiers : list Z) : list Real * list Real :=
  getGradients_loop reset (take size identifiers) adjoints.

(** Modelled from the spec: [ActiveStoreTrait::setGradients] is not part of
    the sources; it writes the gradients to the slots of the given
    identifiers, one after the other, and with [update] accumulates instead
    of overwriting. *)
Fixpoint setGradients_loop (update : bool) (identifiers : list Z)
    (gradients : list Real) (adjoints : list Real) : list Real :=
  match identifiers, gradients with
  | id :: identifiers', g :: gradients' =>
      setGradients_loop update identifiers' gradients'
        (adjoint_write adjoints id
           (if update then Real_add (adjoint_read adjoints id) g else g))
  | _, _ => adjoints
  end.

(** Modelled from the spec: [setGradients] for the first [size]
    identifiers. *)
Definition setGradients (adjoints : list Real) (size : nat) (update : bool)
    (identifiers : list Z) (gradients : list Real) : list Real :=
  setGradients_loop update (take size identifiers) gradients adjoints.

(** [forward], after its restore calls, on a Jacobian tape
    ([Tape::HasPrimalValues] is false): the adjoint vector after the call. *)
Definition forward (d : Restored) (adjoints : list Real) : list Real :=
  let A_d_in :=
    if active_A d
    then fst (getGradients adjoints (n d * k d) false (identifierIn (A_store d)))
    else gradientIn (A_store d) in
  let B_d_in :=
    if active_B d
    then fst (getGradients adjoints (k d * m d) false (identifierIn (B_store d)))
    else gradientIn (B_store d) in
  let '(_, R_d_out) :=
    callForward (value (A_store d)) (active_A d) A_d_in
      (value (B_store d)) (active_B d) B_d_in
      (value (R_store d)) (gradientOut (R_store d)) (n d) (k d) (m d) in
  setGradients adjoints (n d * m d) false (identifierOut (R_store d)) R_d_out.

(** The gradient arrays [reverse] hands to the adjoint vector: the output
    gradients read, the adjoint vector after that read, and the two input
    gradient arrays after [callReverse]. *)
Definition reverse_gradients (d : Restored) (adjoints : list Real)
    : list Real * list Real * (list Real * list Real) :=
  let '(R_b_out, adjoints1) :=
    getGradients adjoints (n d * m d) true (identifierOut (R_store d)) in
  (R_b_out, adjoints1,
   callReverse (value (A_store d)) (active_A d) (gradientIn (A_store d))
     (value (B_store d)) (active_B d) (gradientIn (B_store d))
     (value (R_store d)) R_b_out (n d) (k d) (m d)).

(** [reverse], after its restore calls, on a Jacobian tape: the adjoint
    vector after the call. *)
Definition reverse (d : Restored) (adjoints : list Real) : list Real :=
  let '(_, adjoints1, (A_b_in, B_b_in)) := reverse_gradients d adjoints in
  let adjoints2 :=
    if active_A d
    then setGradients adjoints1 (n d * k d) true (identifierIn (A_store d)) A_b_in
    else adjoints1 in
  if active_B d
  then setGradients adjoints2 (k d * m d) true (identifierIn (B_store d)) B_b_in
  else adjoints2.

(** The Frobenius product of two matrices of the same shape, the pairing
    under which a reverse replay is the transpose of a forward replay. *)
Definition frobenius (x y : @Expr Real) (rows cols : nat) : Real :=
  dot (fun i => dot (fun j => Real_mul (x i j) (y i j)) cols) rows.

End Function.

(** The entry points: [matrixMatrixMultiplication<eigenStore>] and its two
    instances. *)
Definition matrixMatrixMultiplication `{RealOps} `{LowLevelFunctionEnv}
    (eigenStore : StorageOptions) (A B R : list ActiveType) (n k m : nat)
    (st : TapeState) : TapeState * list ActiveType :=
  store eigenStore A B R n k m st.

Definition matrixMatrixMultiplicationRowMajor `{RealOps} `{LowLevelFunctionEnv}
    (A B R : list ActiveType) (n k m : nat) (st : TapeState)
    : TapeState * list ActiveType :=
  matrixMatrixMultiplication RowMajor A B R n k m st.

Definition matrixMatrixMultiplicationColMajor `{RealOps} `{LowLevelFunctionEnv}
    (A B R : list ActiveType) (n k m : nat) (st : TapeState)
    : TapeState * list ActiveType :=
  matrixMatrixMultiplication ColMajor A B R n k m st.

(** The laws of a commutative semiring, for the statements that compare two
    ways of computing (they hold of exact arithmetic). *)
Class RealLaws `{RealOps} : Prop := {
  Real_add_comm a b : Real_add a b = Real_add b a;
  Real_add_assoc a b c : Real_add a (Real_add b c) = Real_add (Real_add a b) c;
  Real_add_0_l a : Real_add Real_zero a = a;
  Real_mul_comm a b : Real_mul a b = Real_mul b a;
  Real_mul_assoc a b c : Real_mul a (Real_mul b c) = Real_mul (Real_mul a b) c;
  Real_mul_add_distr_l a b c :
    Real_mul a (Real_add b c) = Real_add (Real_mul a b) (Real_mul a c);
  Real_mul_0_r a : Real_mul a Real_zero = Real_zero;
}.

(** Instances for examples: integer values; tokens are the positions in the
    registry and the sentinel is the largest 16 bit value. *)
#[export] Instance ZReal : RealOps := {|
  Real := Z;
  Real_zero := 0%Z;
  Real_add := Z.add;
  Real_mul := Z.mul;
|}.

#[export] Instance ExampleEnv : LowLevelFunctionEnv := {|
  LowLevelFunctionTokenInvalid := 65535%Z;
  registerLowLevelFunction_token := fun entries => Z.of_nat (length entries);
  countActivitySize := 1;
  ActiveStoreTrait_countSize := fun size _ => (8, 12 * size);
  PassiveStoreTrait_countSize := fun size _ => (size, 0);
|}.

(** A tape with a token type of two bits, for the edge where the registry
    runs into the sentinel: tokens are the positions in the registry and the
    sentinel is 3. *)
Definition TwoBitEnv : LowLevelFunctionEnv := {|
  LowLevelFunctionTokenInvalid := 3%Z;
  registerLowLevelFunction_token := fun entries => Z.of_nat (length entries);
  countActivitySize := 1;
  ActiveStoreTrait_countSize := fun size _ => (8, 12 * size);
  PassiveStoreTrait_countSize := fun size _ => (size, 0);
|}.

#[export] Instance ZRealLaws : @RealLaws ZReal.
Proof. split; simpl; intros; lia. Qed.

Definition ZActive (v i : Z) : @ActiveType ZReal := @mkActive ZReal v i.

Definition ZState (id : Z) (entries : list LowLevelFunctionEntry)
    (records : list (Z * nat * nat)) (accesses : list Access) (largest : Z)
    : TapeState :=
  mkState id entries records accesses largest.

Definition ZRestored (a b : bool) (sa sb sr : @ArgumentStore ZReal)
    (n k m : nat) : @Restored ZReal :=
  @mkRestored ZReal a b sa sb sr n k m.

Definition ZStore (v : list Z) (i_in : list Z) (g_in : list Z) (i_out : list Z)
    (g_out : list Z) : @ArgumentStore ZReal :=
  @mkStore ZReal v i_in g_in i_out g_out.

End ExtFunc_matrixMatrixMultiplication.

(** ** The increment operator test (testIncrementOperators.hpp) *)

Module TestIncrementOperators.

Section Func.
(** The template parameter [Number] with what [++] and [--] do to a value. *)
Context {Number : Type} (increment decrement : Number -> Number).

(** Array accesses; [None] stands for an access outside the array. *)
Definition read (a : list Number) (i : nat) : option Number := a !! i.

Definition write (a : list Number) (i : nat) (v : Number) : option (list Number) :=
  if decide (i < length a) then Some (<[i := v]> a) else None.

(** [op a[i]] (prefix: the value of the expression is the new value of the
    element) and [a[i] op] (postfix: it is the old one). *)
Definition prefix_op (op : Number -> Number) (a : list Number) (i : nat)
    : option (list Number * Number) :=
  v ← read a i; a' ← write a i (op v); Some (a', op v).

Definition postfix_op (op : Number -> Number) (a : list Number) (i : nat)
    : option (list Number * Number) :=
  v ← read a i; a' ← write a i (op v); Some (a', v).

(** [func(x, y)]: the array [y] after the call. *)
Definition func (x y : list Number) : option (list Number) :=
  v ← read x 0; y ← write y 0 v;
  r ← prefix_op increment y 0; y ← write r.1 1 r.2;
  v ← read x 0; y ← write y 2 v;
  r ← postfix_op increment y 2; y ← write r.1 3 r.2;
  v ← read x 0; y ← write y 4 v;
  r ← prefix_op decrement y 4; y ← write r.1 5 r.2;
  v ← read x 0; y ← write y 6 v;
  r ← postfix_op decrement y 6; write r.1 7 r.2.

End Func.

End TestIncrementOperators.

(** * Properties *)

Module MachineIntFacts.

Import MachineInt.
Local Open Scope Z_scope.

Lemma wrap_int_small z : is_int z -> wrap_int z = z.
Proof.
  unfold is_int, wrap_int, Int_min, Int_max. intros Hz.
  rewrite Z.mod_small; lia.
Qed.

Lemma wrap_int_range z : is_int (wrap_int z).
Proof.
  unfold is_int, wrap_int, Int_min, Int_max.
  pose proof (Z.mod_pos_bound (z + 2 ^ 31) (2 ^ 32)). lia.
Qed.

Lemma Identifier_of_size_t_small n :
  Z.of_nat n <= Int_max -> Identifier_of_size_t n = Z.of_nat n.
Proof.
  intros Hn. apply wrap_int_small. unfold is_int, Int_min. lia.
Qed.

(** A size whose conversion is positive is at least that large. *)
Lemma Identifier_of_size_t_le n :
  0 <= Identifier_of_size_t n -> Identifier_of_size_t n <= Z.of_nat n.
Proof.
  unfold Identifier_of_size_t, wrap_int. intros H.
  pose proof (Z.mod_le (Z.of_nat n + 2 ^ 31) (2 ^ 32)). lia.
Qed.

Lemma size_t_of_int_small z : 0 <= z <= Int_max -> size_t_of_int z = Z.to_nat z.
Proof.
  unfold size_t_of_int, Int_max. intros Hz. rewrite Z.mod_small; lia.
Qed.

Lemma int_add_small a b : is_int (a + b) -> int_add a b = a + b.
Proof. apply wrap_int_small. Qed.

(** Whatever non-negative [int] the index manager reports, one more than it,
    taken as a [size_t], is not zero. *)
Lemma size_t_of_succ_pos z :
  0 <= z <= Int_max -> (0 < size_t_of_int (int_add z 1))%nat.
Proof.
  unfold Int_max. intros Hz.
  destruct (decide (z = 2 ^ 31 - 1)) as [->|Hne].
  - unfold size_t_of_int.
    replace (int_add (2 ^ 31 - 1) 1 mod 2 ^ 64) with (2 ^ 64 - 2 ^ 31)
      by (vm_compute; reflexivity).
    lia.
  - rewrite int_add_small by (unfold is_int, Int_min, Int_max; lia).
    rewrite size_t_of_int_small by (unfold Int_max; lia). lia.
Qed.

End MachineIntFacts.

Module JacobianBaseTapeFacts.

Import MachineInt MachineIntFacts JacobianBaseTape.

Section Facts.
Context `{TapeImpl}.

Implicit Types (t : Tape) (identifier : Z).

Lemma LocalAdjoints_at_0 (a : list Gradient) : LocalAdjoints_at a 0 = a !! 0%nat.
Proof. reflexivity. Qed.

Lemma LocalAdjoints_at_in_range (a : list Gradient) identifier :
  (0 <= identifier < Z.of_nat (length a))%Z ->
  LocalAdjoints_at a identifier = a !! Z.to_nat identifier /\
  is_Some (a !! Z.to_nat identifier).
Proof.
  intros Hi. unfold LocalAdjoints_at.
  destruct (Z.ltb_spec identifier 0); [lia|].
  split; [reflexivity|]. apply lookup_lt_is_Some. lia.
Qed.

Lemma LocalAdjoints_at_beyond (a : list Gradient) identifier :
  (Z.of_nat (length a) <= identifier)%Z -> LocalAdjoints_at a identifier = None.
Proof.
  intros Hi. unfold LocalAdjoints_at.
  destruct (Z.ltb_spec identifier 0); [reflexivity|].
  apply lookup_ge_None. lia.
Qed.

Lemma nonempty_lookup_0 (a : list Gradient) : a <> [] -> is_Some (a !! 0%nat).
Proof. destruct a; [congruence|]. intros _. eexists. reflexivity. Qed.

(** The size check when it fires: the vector gets one slot more than the
    largest created index. *)
Lemma resizeAdjointsVector_length t :
  index_ok (largestCreatedIndex t) ->
  length (adjoints (resizeAdjointsVector t)) = Z.to_nat (largestCreatedIndex t + 1).
Proof.
  unfold index_ok. intros Hl. unfold resizeAdjointsVector, LocalAdjoints_resize. simpl.
  rewrite length_resize.
  rewrite int_add_small by (unfold is_int, Int_min, Int_max in *; lia).
  apply size_t_of_int_small. lia.
Qed.

Lemma checkAdjointSize_largest t identifier :
  largestCreatedIndex (checkAdjointSize t identifier) = largestCreatedIndex t.
Proof. unfold checkAdjointSize. destruct (_ <=? _)%Z; reflexivity. Qed.

(** After the size check with the largest created index, that index has a
    slot. *)
Lemma checkAdjointSize_covers t :
  index_ok (largestCreatedIndex t) ->
  (largestCreatedIndex t <
     Z.of_nat (length (adjoints (checkAdjointSize t (largestCreatedIndex t)))))%Z.
Proof.
  intros Hl. unfold checkAdjointSize, LocalAdjoints_size.
  destruct (Z.leb_spec (Identifier_of_size_t (length (adjoints t)))
              (largestCreatedIndex t)) as [Hle|Hgt].
  - rewrite resizeAdjointsVector_length by done. unfold index_ok in Hl. lia.
  - pose proof (Identifier_of_size_t_le (length (adjoints t))).
    unfold index_ok in Hl. lia.
Qed.

(** The size check never leaves the vector empty. *)
Lemma checkAdjointSize_nonempty t identifier :
  index_ok (largestCreatedIndex t) ->
  (1 <= length (adjoints t))%nat ->
  (1 <= length (adjoints (checkAdjointSize t identifier)))%nat.
Proof.
  intros Hl Hn. unfold checkAdjointSize.
  destruct (_ <=? _)%Z; [|done].
  unfold resizeAdjointsVector, LocalAdjoints_resize. simpl.
  rewrite length_resize. apply size_t_of_succ_pos.
  unfold index_ok in Hl. lia.
Qed.

(** C1 (as amended): when the adjoint vector has at least one slot, for an
    identifier larger than the size of the adjoint vector the const accessor
    [gradient(identifier) const] returns the value of slot 0, and this read
    is inside the vector; the accessor is a pure function of the tape, so
    nothing is allocated or resized. *)
Theorem gradient_const_beyond_size t identifier :
  adjoints t <> [] ->
  is_int identifier ->
  (Z.of_nat (LocalAdjoints_size (adjoints t)) < identifier)%Z ->
  gradient_const t identifier = adjoints t !! 0%nat /\
  is_Some (gradient_const t identifier).
Proof.
  intros Hne Hint Hgt. unfold gradient_const, LocalAdjoints_size in *.
  rewrite Identifier_of_size_t_small by (unfold is_int in Hint; lia).
  destruct (Z.ltb_spec (Z.of_nat (length (adjoints t))) identifier); [|lia].
  rewrite LocalAdjoints_at_0. split; [reflexivity|].
  by apply nonempty_lookup_0.
Qed.

(** At an identifier equal to the size the const accessor takes the other
    branch and indexes one past the last slot. *)
Lemma gradient_const_at_size t :
  (Z.of_nat (length (adjoints t)) <= Int_max)%Z ->
  gradient_const t (Z.of_nat (length (adjoints t))) = None.
Proof.
  intros Hs. unfold gradient_const, LocalAdjoints_size.
  rewrite Identifier_of_size_t_small by done.
  rewrite Z.ltb_irrefl. apply LocalAdjoints_at_beyond. lia.
Qed.

(** C2 (as amended): for an identifier at or beyond the size of the adjoint
    vector and not larger than the largest created index, the mutating
    accessor resizes the vector to the largest created index plus one, which
    is at least [identifier + 1]; the slots that existed keep their values
    and the returned reference designates slot [identifier] inside the
    vector. *)
Theorem gradient_resizes_to_largest t identifier :
  index_ok (largestCreatedIndex t) ->
  (Z.of_nat (LocalAdjoints_size (adjoints t)) <= identifier <= largestCreatedIndex t)%Z ->
  length (adjoints (fst (gradient t identifier))) =
    Z.to_nat (largestCreatedIndex t + 1) /\
  (identifier + 1 <= Z.of_nat (length (adjoints (fst (gradient t identifier)))))%Z /\
  adjoints (fst (gradient t identifier)) =
    adjoints t ++
    replicate (Z.to_nat (largestCreatedIndex t + 1) - length (adjoints t))
      Gradient_zero /\
  snd (gradient t identifier) = Some (Z.to_nat identifier).
Proof.
  intros Hl Hi. pose proof Hl as Hl'. unfold index_ok in Hl'.
  unfold gradient, LocalAdjoints_size in *. simpl.
  assert (Hc : checkAdjointSize t identifier = resizeAdjointsVector t).
  { unfold checkAdjointSize, LocalAdjoints_size.
    rewrite Identifier_of_size_t_small by lia.
    destruct (Z.leb_spec (Z.of_nat (length (adjoints t))) identifier); [done|lia]. }
  rewrite Hc.
  pose proof (resizeAdjointsVector_length t Hl) as Hlen.
  rewrite Hlen. split; [reflexivity|]. split; [lia|]. split.
  - unfold resizeAdjointsVector, LocalAdjoints_resize in *. simpl in *.
    rewrite length_resize in Hlen. rewrite Hlen.
    apply resize_ge. lia.
  - destruct (LocalAdjoints_at_in_range
                (adjoints (resizeAdjointsVector t)) identifier) as [-> [g ->]];
      [lia|reflexivity].
Qed.

(** C7: an evaluation call ([evaluateForward] or [evaluate], any positions)
    starts its sweep on the adjoint vector after the size check; that vector
    has a slot for the largest created index, and when the largest created
    index was beyond the vector, the vector was extended by value-initialised
    slots to exactly the largest created index plus one. *)
Theorem evaluation_resizes_first t (start end_ : Position) :
  index_ok (largestCreatedIndex t) ->
  evaluateForward t start end_ =
    mkTape (Impl_evaluateForward start end_ (evaluation_data t))
      (largestCreatedIndex t) /\
  evaluate t start end_ =
    mkTape (Impl_evaluate start end_ (evaluation_data t)) (largestCreatedIndex t) /\
  (largestCreatedIndex t < Z.of_nat (length (evaluation_data t)))%Z /\
  ((Z.of_nat (LocalAdjoints_size (adjoints t)) <= largestCreatedIndex t)%Z ->
   evaluation_data t =
     adjoints t ++
     replicate (Z.to_nat (largestCreatedIndex t + 1) - length (adjoints t))
       Gradient_zero).
Proof.
  intros Hl. unfold evaluateForward, evaluate, evaluation_data.
  rewrite checkAdjointSize_largest.
  split; [reflexivity|]. split; [reflexivity|].
  split; [by apply checkAdjointSize_covers|].
  pose proof Hl as Hl'. unfold index_ok in Hl'.
  intros Hs. unfold checkAdjointSize, LocalAdjoints_size in *.
  rewrite Identifier_of_size_t_small by lia.
  destruct (Z.leb_spec (Z.of_nat (length (adjoints t))) (largestCreatedIndex t));
    [|lia].
  pose proof (resizeAdjointsVector_length t Hl) as Hlen.
  unfold resizeAdjointsVector, LocalAdjoints_resize in *. simpl in *.
  rewrite length_resize in Hlen. rewrite Hlen. apply resize_ge. lia.
Qed.

(** C8: [clearAdjoints] sets every slot of the adjoint vector to the additive
    identity and leaves the number of slots (and the index manager)
    unchanged. *)
Theorem clearAdjoints_zeroes_every_slot t :
  length (adjoints (clearAdjoints t)) = length (adjoints t) /\
  (forall i, (i < length (adjoints t))%nat ->
     adjoints (clearAdjoints t) !! i = Some Gradient_zero) /\
  Forall (fun g => g = Gradient_zero) (adjoints (clearAdjoints t)) /\
  largestCreatedIndex (clearAdjoints t) = largestCreatedIndex t.
Proof.
  unfold clearAdjoints, LocalAdjoints_zeroAll. simpl.
  split; [apply length_fmap|]. split; [|split; [|reflexivity]].
  - intros i Hi. rewrite list_lookup_fmap.
    destruct (lookup_lt_is_Some_2 (adjoints t) i Hi) as [g ->]. reflexivity.
  - apply Forall_fmap, Forall_true. intros g. reflexivity.
Qed.

(** Every call keeps the vector non-empty and the reported index
    non-negative. *)
Lemma call_keeps_slot_0 t c :
  Call_ok c ->
  index_ok (largestCreatedIndex t) /\ (1 <= length (adjoints t))%nat ->
  index_ok (largestCreatedIndex (call t c)) /\
  (1 <= length (adjoints (call t c)))%nat.
Proof.
  intros Hc [Hl Hn].
  destruct c as [| |s e|s e|i|z]; simpl in *.
  - split; [done|]. unfold LocalAdjoints_resize. by rewrite length_resize.
  - split; [done|]. unfold LocalAdjoints_zeroAll. by rewrite length_fmap.
  - rewrite checkAdjointSize_largest. split; [done|].
    rewrite Impl_evaluateForward_length. by apply checkAdjointSize_nonempty.
  - rewrite checkAdjointSize_largest. split; [done|].
    rewrite Impl_evaluate_length. by apply checkAdjointSize_nonempty.
  - rewrite checkAdjointSize_largest. split; [done|].
    by apply checkAdjointSize_nonempty.
  - done.
Qed.

Lemma calls_keep_slot_0 cs : forall t,
  Forall Call_ok cs ->
  index_ok (largestCreatedIndex t) /\ (1 <= length (adjoints t))%nat ->
  index_ok (largestCreatedIndex (calls t cs)) /\
  (1 <= length (adjoints (calls t cs)))%nat.
Proof.
  unfold calls. induction cs as [|c cs IH]; intros t Hcs Hinv; simpl; [done|].
  inversion Hcs; subst. apply IH; [done|]. by apply call_keeps_slot_0.
Qed.

(** C9: the constructor creates the adjoint vector with exactly one slot,
    [deleteAdjointVector] resizes it to exactly one slot, and after the
    constructor and any sequence of [deleteAdjointVector], [clearAdjoints],
    evaluation (and mutating [gradient]) calls, interleaved with index
    creation, the vector has at least one slot, so that [gradient(0) const]
    reads an existing slot. *)
Theorem adjoints_keep_slot_0 (largest : Z) (cs : list Call) :
  index_ok largest ->
  Forall Call_ok cs ->
  length (adjoints (JacobianBaseTape_new largest)) = 1%nat /\
  length (adjoints (deleteAdjointVector (calls (JacobianBaseTape_new largest) cs))) = 1%nat /\
  (1 <= length (adjoints (calls (JacobianBaseTape_new largest) cs)))%nat /\
  gradient_const (calls (JacobianBaseTape_new largest) cs) 0 =
    adjoints (calls (JacobianBaseTape_new largest) cs) !! 0%nat /\
  is_Some (gradient_const (calls (JacobianBaseTape_new largest) cs) 0).
Proof.
  intros Hl Hcs.
  destruct (calls_keep_slot_0 cs (JacobianBaseTape_new largest) Hcs) as [_ Hn].
  { split; [exact Hl|]. simpl. lia. }
  set (t := calls (JacobianBaseTape_new largest) cs) in *.
  split; [reflexivity|].
  split; [unfold deleteAdjointVector, LocalAdjoints_resize; simpl;
          by rewrite length_resize|].
  split; [exact Hn|].
  assert (Hg : gradient_const t 0 = adjoints t !! 0%nat).
  { unfold gradient_const. destruct (_ <? _)%Z; reflexivity. }
  split; [exact Hg|]. rewrite Hg. apply lookup_lt_is_Some. lia.
Qed.

(** [setParameter(AdjointSize, 0)] is outside the calls above: it empties
    the vector. *)
Lemma setParameter_AdjointSize_0 t :
  adjoints (setParameter_AdjointSize t 0) = [].
Proof. unfold setParameter_AdjointSize, LocalAdjoints_resize. simpl. apply resize_0. Qed.

End Facts.

(** The witness of C1: a vector of three slots read at identifier 7. *)
Lemma gradient_const_beyond_size_witness :
  gradient_const (ZTape_of [5; 6; 7]%Z 2) 7 = Some 5%Z /\
  is_Some (gradient_const (ZTape_of [5; 6; 7]%Z 2) 7).
Proof.
  apply (gradient_const_beyond_size (ZTape_of [5; 6; 7]%Z 2) 7).
  - discriminate.
  - unfold is_int, Int_min, Int_max. lia.
  - simpl. lia.
Defined.

(** C1 as stated fails: [setParameter(AdjointSize, 0)] leaves the adjoint
    vector without a slot; identifier 1 exceeds the size 0, the const
    accessor takes its first branch and indexes slot 0 of the empty
    vector. *)
Lemma gradient_const_empty_vector_counterexample :
  (Z.of_nat (LocalAdjoints_size
               (adjoints (setParameter_AdjointSize (ZTape_of [5; 6; 7]%Z 2) 0))) < 1)%Z /\
  gradient_const (setParameter_AdjointSize (ZTape_of [5; 6; 7]%Z 2) 0) 1 = None.
Proof. split; [vm_compute|]; reflexivity. Qed.

(** C2 as stated fails: a tape that has issued no identifier beyond 0 is
    accessed at identifier 5; the vector keeps its single slot and the
    returned reference points outside it. *)
Lemma gradient_resize_counterexample :
  (Z.of_nat (LocalAdjoints_size (adjoints (ZTape_of [0%Z] 0))) <= 5)%Z /\
  ~ (5 + 1 <= Z.of_nat (length (adjoints (fst (gradient (ZTape_of [0%Z] 0) 5)))))%Z /\
  snd (gradient (ZTape_of [0%Z] 0) 5) = None.
Proof. vm_compute. split; [discriminate|]. split; [|reflexivity]. intros Hc. apply Hc. reflexivity. Qed.

(** The size check can also shrink the vector: four slots, largest created
    index 1, access at identifier 4. *)
Example gradient_resize_shrinks :
  adjoints (fst (gradient (ZTape_of [1; 2; 3; 4]%Z 1) 4)) = [1; 2]%Z.
Proof. reflexivity. Qed.

(** The witness of C2 (amended): one slot, identifiers issued up to 3,
    access at identifier 2. *)
Lemma gradient_resizes_to_largest_witness :
  length (adjoints (fst (gradient (ZTape_of [9%Z] 3) 2))) = 4%nat /\
  (2 + 1 <= Z.of_nat (length (adjoints (fst (gradient (ZTape_of [9%Z] 3) 2)))))%Z /\
  adjoints (fst (gradient (ZTape_of [9%Z] 3) 2)) = [9; 0; 0; 0]%Z /\
  snd (gradient (ZTape_of [9%Z] 3) 2) = Some 2%nat.
Proof.
  apply (gradient_resizes_to_largest (ZTape_of [9%Z] 3) 2).
  - unfold index_ok, Int_max. simpl. lia.
  - simpl. lia.
Defined.

(** The witness of C7: two slots, identifiers issued up to 4. *)
Lemma evaluation_resizes_first_witness :
  evaluateForward (ZTape_of [7; 8]%Z 4) 0%nat 3%nat =
    ZTape_of [7; 8; 0; 0; 0]%Z 4 /\
  (4 < Z.of_nat (length (evaluation_data (ZTape_of [7; 8]%Z 4))))%Z.
Proof.
  destruct (evaluation_resizes_first (ZTape_of [7; 8]%Z 4) 0%nat 3%nat)
    as (Hf & _ & Hlt & _).
  - unfold index_ok, Int_max. simpl. lia.
  - split; [reflexivity|exact Hlt].
Defined.

(** The witness of C9: index creation, an evaluation, a reset of the
    adjoints and the deletion of the vector. *)
Lemma adjoints_keep_slot_0_witness :
  (1 <= length (adjoints
     (calls (@JacobianBaseTape_new ZTape 0)
        [IndexManagerCreate 3; Call_evaluate 0%nat 1%nat; Call_clearAdjoints;
         Call_deleteAdjointVector])))%nat.
Proof.
  refine (proj1 (proj2 (proj2 (@adjoints_keep_slot_0 ZTape 0
     [IndexManagerCreate 3; Call_evaluate 0%nat 1%nat; Call_clearAdjoints;
      Call_deleteAdjointVector] _ _)))).
  - unfold index_ok, Int_max. lia.
  - repeat constructor; unfold index_ok, Int_max; simpl; lia.
Defined.

End JacobianBaseTapeFacts.

Module EigenFacts.

Import Eigen.

Section Facts.
Context {T : Type}.
Implicit Types (s : StorageOptions) (data : list T) (e : @Expr T).

Lemma storage_index_lt s rows cols i j :
  i < rows -> j < cols -> storage_index s rows cols i j < rows * cols.
Proof. intros Hi Hj. destruct s; simpl; nia. Qed.

Lemma storage_row_index s rows cols i j :
  i < rows -> j < cols ->
  storage_row s rows cols (storage_index s rows cols i j) = i.
Proof.
  intros Hi Hj. destruct s; simpl.
  - symmetry. apply (Nat.div_unique _ _ _ j); lia.
  - symmetry. apply (Nat.mod_unique _ _ j); lia.
Qed.

Lemma storage_col_index s rows cols i j :
  i < rows -> j < cols ->
  storage_col s rows cols (storage_index s rows cols i j) = j.
Proof.
  intros Hi Hj. destruct s; simpl.
  - symmetry. apply (Nat.mod_unique _ _ i); lia.
  - symmetry. apply (Nat.div_unique _ _ _ i); lia.
Qed.

Lemma assign_length s data rows cols e :
  length (assign s data rows cols e) = length data.
Proof. unfold assign. apply length_imap. Qed.

(** Reading back what an assignment wrote. *)
Lemma mapEigen_assign s dflt data rows cols e i j :
  rows * cols <= length data -> i < rows -> j < cols ->
  mapEigen s dflt (assign s data rows cols e) rows cols i j = e i j.
Proof.
  intros Hlen Hi Hj. unfold mapEigen, assign.
  pose proof (storage_index_lt s rows cols i j Hi Hj) as Hlt.
  rewrite nth_lookup, list_lookup_imap.
  destruct (lookup_lt_is_Some_2 data (storage_index s rows cols i j)) as [x ->];
    [lia|]. simpl.
  destruct (Nat.ltb_spec (storage_index s rows cols i j) (rows * cols)); [|lia].
  by rewrite storage_row_index, storage_col_index.
Qed.

End Facts.

End EigenFacts.

Module ExtFuncFacts.

Import Eigen EigenFacts ExtFunc_matrixMatrixMultiplication.

Section Facts.
Context {RO : RealOps} {Env : LowLevelFunctionEnv}.
Variable eigenStore : StorageOptions.

Lemma existsb_seq_exists (f : nat -> bool) (len : nat) :
  existsb f (seq 0 len) = true <-> exists l, l < len /\ f l = true.
Proof.
  rewrite existsb_exists. split.
  - intros (l & Hin & Hf). apply in_seq in Hin. exists l. split; [lia|done].
  - intros (l & Hl & Hf). exists l. split; [apply in_seq; lia|done].
Qed.

Lemma rowwise_any_true (x : @Expr Z) inner i :
  rowwise_any x inner i = true <-> exists l, l < inner /\ x i l <> 0%Z.
Proof.
  unfold rowwise_any. rewrite existsb_seq_exists.
  split; intros (l & Hl & Hx); exists l; (split; [done|]).
  - apply negb_true_iff, Z.eqb_neq in Hx. done.
  - apply negb_true_iff, Z.eqb_neq. done.
Qed.

Lemma colwise_any_true (x : @Expr Z) inner j :
  colwise_any x inner j = true <-> exists l, l < inner /\ x l j <> 0%Z.
Proof.
  unfold colwise_any. rewrite existsb_seq_exists.
  split; intros (l & Hl & Hx); exists l; (split; [done|]).
  - apply negb_true_iff, Z.eqb_neq in Hx. done.
  - apply negb_true_iff, Z.eqb_neq. done.
Qed.

(** The identifier [callPrimal] leaves at an output position when the
    function is recorded. *)
Lemma callPrimal_marker_value A active_A A_i_in B active_B B_i_in R R_i_out
    n k m i j :
  n * m <= length R_i_out -> i < n -> j < m ->
  mapId eigenStore
    (snd (callPrimal eigenStore true A active_A A_i_in B active_B B_i_in
            R R_i_out n k m)) n m i j =
  ((if active_A then Z.b2z (rowwise_any (mapId eigenStore A_i_in n k) k i) else 0) +
   (if active_B then Z.b2z (colwise_any (mapId eigenStore B_i_in k m) k j) else 0))%Z.
Proof.
  intros Hlen Hi Hj. unfold callPrimal, mapId. simpl.
  set (r0 := assign eigenStore R_i_out n m (fun _ _ => 0%Z)).
  assert (Hr0 : n * m <= length r0) by (unfold r0; by rewrite assign_length).
  assert (Hz : mapEigen eigenStore 0%Z r0 n m i j = 0%Z)
    by (unfold r0; by rewrite mapEigen_assign).
  destruct active_A, active_B.
  - rewrite mapEigen_assign; [|by rewrite assign_length|done|done].
    rewrite mapEigen_assign by done. rewrite Hz. lia.
  - rewrite mapEigen_assign by done. rewrite Hz. lia.
  - rewrite mapEigen_assign by done. rewrite Hz. lia.
  - rewrite Hz. lia.
Qed.

(** C10: when the function is recorded (at least one input is active), the
    identifier that [callPrimal] leaves at position [(i, j)] of the output is
    non-zero exactly when A is active and row [i] of A's identifiers has a
    non-zero entry, or B is active and column [j] of B's identifiers has a
    non-zero entry; every other position holds zero. *)
Theorem callPrimal_output_marker A active_A A_i_in B active_B B_i_in R R_i_out
    n k m i j :
  active_A || active_B = true ->
  n * m <= length R_i_out -> i < n -> j < m ->
  mapId eigenStore
    (snd (callPrimal eigenStore (active_A || active_B) A active_A A_i_in
            B active_B B_i_in R R_i_out n k m)) n m i j <> 0%Z
  <->
  (active_A = true /\ exists l, l < k /\ mapId eigenStore A_i_in n k i l <> 0%Z) \/
  (active_B = true /\ exists l, l < k /\ mapId eigenStore B_i_in k m l j <> 0%Z).
Proof.
  intros Hact Hlen Hi Hj. rewrite Hact.
  rewrite callPrimal_marker_value by done.
  rewrite <- rowwise_any_true, <- colwise_any_true.
  destruct active_A, active_B;
    destruct (rowwise_any _ k i), (colwise_any _ k j); simpl;
    intuition (try discriminate; try lia).
Qed.


(** *** The passive path of [store] *)

Lemma dot_ext (f g : nat -> Real) inner :
  (forall l, l < inner -> f l = g l) -> dot f inner = dot g inner.
Proof.
  unfold dot. induction inner as [|inner IH]; intros Hfg; [reflexivity|].
  rewrite seq_S, !foldl_app. simpl.
  rewrite IH by (intros l Hl; apply Hfg; lia).
  rewrite (Hfg inner) by lia. reflexivity.
Qed.

Lemma isActive_passive (value : list ActiveType) size :
  Forall (fun v => identifier v = 0%Z) value -> isActive value size = false.
Proof.
  intros Hall. unfold isActive.
  apply not_true_is_false. intros Hex.
  apply existsb_exists in Hex as (v & Hin & Hv).
  apply list_elem_of_In, elem_of_take in Hin as (p & Hp & _).
  rewrite Forall_lookup in Hall. rewrite (Hall _ _ Hp) in Hv. discriminate.
Qed.

(** The values of an input seen through its store. *)
Lemma mapReal_input_value (value : list ActiveType) rows cols i j :
  i < rows -> j < cols ->
  mapReal eigenStore (input_value value (rows * cols)) rows cols i j =
  mapReal eigenStore (primalValue <$> value) rows cols i j.
Proof.
  intros Hi Hj. unfold mapReal, mapEigen, input_value.
  rewrite !nth_lookup, !list_lookup_fmap.
  rewrite lookup_take_lt by (by apply storage_index_lt). reflexivity.
Qed.

(** Without an active tape, [setExternalFunctionOutput] hands every output its
    primal value, creates no identifier and leaves the outputs passive. *)
Lemma setExternalFunctionOutput_passive size : forall value identifiers primals largest,
  snd (setExternalFunctionOutput false value size identifiers primals largest) = largest /\
  length (fst (setExternalFunctionOutput false value size identifiers primals largest)) =
    length value /\
  forall p, p < size -> p < length value ->
    fst (setExternalFunctionOutput false value size identifiers primals largest) !! p =
    Some (mkActive (nth p primals Real_zero) 0%Z).
Proof.
  induction size as [|size IH]; intros value identifiers primals largest.
  { simpl. split; [done|]. split; [done|]. intros p Hp. lia. }
  destruct value as [|v value]; simpl.
  { split; [done|]. split; [done|]. intros p _ Hp. simpl in Hp. lia. }
  specialize (IH value (tl identifiers) (tl primals) largest).
  destruct (setExternalFunctionOutput false value size (tl identifiers)
              (tl primals) largest) as [rest l] eqn:Hrec.
  simpl in *. destruct IH as (Hl & Hlen & Hval).
  split; [exact Hl|]. split; [by rewrite Hlen|].
  intros [|p] Hp Hpv.
  - destruct primals; reflexivity.
  - change (rest !! p = Some (mkActive (nth (S p) primals Real_zero) 0%Z)).
    rewrite Hval by lia. destruct primals; [destruct p|]; reflexivity.
Qed.

(** C5: when no element of A and no element of B carries an identifier other
    than zero, [store] leaves the tape as it is (the static token, the
    registry, the pushed records, the byte stores and the index manager) and
    hands back in R the primal product of A and B, every output passive. *)
Theorem store_passive (A B R : list ActiveType) (n k m : nat) (st : TapeState) :
  Forall (fun v => identifier v = 0%Z) A ->
  Forall (fun v => identifier v = 0%Z) B ->
  n * m <= length R ->
  fst (store eigenStore A B R n k m st) = st /\
  length (snd (store eigenStore A B R n k m st)) = length R /\
  forall i j, i < n -> j < m ->
    snd (store eigenStore A B R n k m st) !! storage_index eigenStore n m i j =
    Some (mkActive
            (product (mapReal eigenStore (primalValue <$> A) n k)
               (mapReal eigenStore (primalValue <$> B) k m) k i j)
            0%Z).
Proof.
  intros HA HB HR. unfold store.
  rewrite (isActive_passive A (n * k) HA), (isActive_passive B (k * m) HB).
  simpl.
  set (Rv := assign eigenStore (replicate (n * m) Real_zero) n m _).
  destruct (setExternalFunctionOutput_passive (n * m) R
              (replicate (n * m) 0%Z) Rv (indexManager_largest st))
    as (Hl & Hlen & Hval).
  destruct (setExternalFunctionOutput false R (n * m) (replicate (n * m) 0%Z)
              Rv (indexManager_largest st)) as [R' largest] eqn:Hout.
  simpl in *. subst largest.
  split; [destruct st; simpl; by rewrite !app_nil_r|].
  split; [exact Hlen|].
  intros i j Hi Hj.
  pose proof (storage_index_lt eigenStore n m i j Hi Hj) as Hlt.
  rewrite Hval by lia. f_equal. f_equal.
  change (nth (storage_index eigenStore n m i j) Rv Real_zero)
    with (mapEigen eigenStore Real_zero Rv n m i j).
  unfold Rv. rewrite mapEigen_assign by (rewrite ?length_replicate; lia).
  unfold product. apply dot_ext. intros l Hl.
  by rewrite !mapReal_input_value.
Qed.

(** *** The adjoint vector under a reverse replay *)

Lemma adjoint_write_length (adjoints : list Real) id g :
  length (adjoint_write adjoints id g) = length adjoints.
Proof. unfold adjoint_write. destruct (_ <? _)%Z; [done|apply length_insert]. Qed.

Lemma adjoint_read_write_ne (adjoints : list Real) id id' g :
  id <> id' -> adjoint_read (adjoint_write adjoints id' g) id = adjoint_read adjoints id.
Proof.
  intros Hne. unfold adjoint_read, adjoint_write.
  destruct (Z.ltb_spec id 0); [reflexivity|].
  destruct (Z.ltb_spec id' 0); [reflexivity|].
  rewrite !nth_lookup, list_lookup_insert_ne by lia. reflexivity.
Qed.

Lemma adjoint_read_write_eq (adjoints : list Real) id g :
  (0 <= id < Z.of_nat (length adjoints))%Z ->
  adjoint_read (adjoint_write adjoints id g) id = g.
Proof.
  intros Hid. unfold adjoint_read, adjoint_write.
  destruct (Z.ltb_spec id 0); [lia|].
  rewrite nth_lookup, list_lookup_insert_eq by lia. reflexivity.
Qed.

Lemma getGradients_loop_length reset identifiers : forall (adjoints : list Real),
  length (snd (getGradients_loop reset identifiers adjoints)) = length adjoints.
Proof.
  induction identifiers as [|id ids IH]; intros adjoints; simpl; [done|].
  specialize (IH (if reset then adjoint_write adjoints id Real_zero else adjoints)).
  destruct (getGradients_loop reset ids _) as [gs adjoints2]. simpl in *.
  rewrite IH. destruct reset; [apply adjoint_write_length|done].
Qed.

(** Reading the output gradients changes no slot other than theirs. *)
Lemma getGradients_loop_other reset identifiers : forall (adjoints : list Real) id,
  id ∉ identifiers ->
  adjoint_read (snd (getGradients_loop reset identifiers adjoints)) id =
  adjoint_read adjoints id.
Proof.
  induction identifiers as [|id0 ids IH]; intros adjoints id Hid; simpl; [done|].
  apply not_elem_of_cons in Hid as [Hne Hid].
  specialize (IH (if reset then adjoint_write adjoints id0 Real_zero else adjoints)
                id Hid).
  destruct (getGradients_loop reset ids _) as [gs adjoints2]. simpl in *.
  rewrite IH. destruct reset; [by apply adjoint_read_write_ne|done].
Qed.

Lemma setGradients_loop_length update identifiers :
  forall gradients (adjoints : list Real),
  length (setGradients_loop update identifiers gradients adjoints) = length adjoints.
Proof.
  induction identifiers as [|id ids IH]; intros [|g gs] adjoints; simpl; try done.
  rewrite IH. apply adjoint_write_length.
Qed.

(** Writing the input gradients changes no slot other than theirs. *)
Lemma setGradients_loop_other update identifiers :
  forall gradients (adjoints : list Real) id,
  id ∉ identifiers ->
  adjoint_read (setGradients_loop update identifiers gradients adjoints) id =
  adjoint_read adjoints id.
Proof.
  induction identifiers as [|id0 ids IH]; intros [|g gs] adjoints id Hid;
    simpl; try done.
  apply not_elem_of_cons in Hid as [Hne Hid].
  rewrite IH by done. by apply adjoint_read_write_ne.
Qed.

(** With pairwise different identifiers inside the vector, each slot receives
    the sum of what it held and its gradient. *)
Lemma setGradients_loop_accumulates identifiers :
  forall gradients (adjoints : list Real) p id,
  NoDup identifiers ->
  Forall (fun i => (0 <= i < Z.of_nat (length adjoints))%Z) identifiers ->
  length identifiers <= length gradients ->
  identifiers !! p = Some id ->
  adjoint_read (setGradients_loop true identifiers gradients adjoints) id =
  Real_add (adjoint_read adjoints id) (nth p gradients Real_zero).
Proof.
  induction identifiers as [|id0 ids IH];
    intros gradients adjoints p id Hnd Hrange Hlen Hp; [done|].
  destruct gradients as [|g gs]; [simpl in Hlen; lia|].
  apply NoDup_cons in Hnd as [Hnotin Hnd].
  apply Forall_cons in Hrange as [Hr0 Hrange].
  simpl. destruct p as [|p]; simpl in Hp.
  - injection Hp as ->.
    rewrite setGradients_loop_other by done.
    by rewrite adjoint_read_write_eq.
  - assert (Hne : id <> id0).
    { intros ->. apply Hnotin. apply list_elem_of_lookup. by exists p. }
    rewrite (IH gs _ p id); [| done | | simpl in Hlen; lia | done].
    + by rewrite adjoint_read_write_ne.
    + rewrite adjoint_write_length. exact Hrange.
Qed.

(** [callReverse] when only A is active. *)
Lemma callReverse_active_A A A_b_in B B_b_in R R_b_out n k m :
  callReverse eigenStore A true A_b_in B false B_b_in R R_b_out n k m =
  (assign eigenStore A_b_in n k
     (plus (mapReal eigenStore A_b_in n k)
        (product (mapReal eigenStore R_b_out n m)
           (transpose (mapReal eigenStore B k m)) m)),
   B_b_in).
Proof. reflexivity. Qed.

Lemma adjoint_read_write_zero (adjoints : list Real) id :
  adjoint_read (adjoint_write adjoints id Real_zero) id = Real_zero.
Proof.
  unfold adjoint_read, adjoint_write.
  destruct (Z.ltb_spec id 0); [reflexivity|].
  rewrite nth_lookup.
  destruct (decide (Z.to_nat id < length adjoints)) as [Hlt|Hge].
  - by rewrite list_lookup_insert_eq.
  - rewrite list_insert_ge by lia.
    by rewrite (lookup_ge_None_2 adjoints (Z.to_nat id)) by lia.
Qed.

(** What reading with reset returns and leaves: each identifier yields the
    value its slot holds in the vector the loop started on, unless the
    identifier occurred before, in which case its slot has been cleared; the
    slots of all the identifiers end up cleared and no other slot changes. *)
Lemma getGradients_loop_reset identifiers : forall (adjoints : list Real),
  length (fst (getGradients_loop true identifiers adjoints)) = length identifiers /\
  (forall p id, identifiers !! p = Some id ->
     fst (getGradients_loop true identifiers adjoints) !! p =
     Some (if decide (id ∈ take p identifiers) then Real_zero
           else adjoint_read adjoints id)) /\
  (forall id,
     adjoint_read (snd (getGradients_loop true identifiers adjoints)) id =
     if decide (id ∈ identifiers) then Real_zero else adjoint_read adjoints id).
Proof.
  induction identifiers as [|id0 ids IH]; intros adjoints.
  { simpl. split; [done|]. split; [done|]. intros id.
    destruct (decide (id ∈ [])) as [Hin|]; [by apply elem_of_nil in Hin|done]. }
  simpl. specialize (IH (adjoint_write adjoints id0 Real_zero)).
  destruct (getGradients_loop true ids (adjoint_write adjoints id0 Real_zero))
    as [gs adjoints2]. simpl in *.
  destruct IH as (Hlen & Hget & Hleft).
  split; [by rewrite Hlen|]. split.
  - intros [|p] id Hp; simpl in Hp.
    + injection Hp as ->. simpl.
      destruct (decide (id ∈ [])) as [Hin|]; [by apply elem_of_nil in Hin|done].
    + simpl. rewrite (Hget p id Hp).
      destruct (decide (id = id0)) as [->|Hne].
      * rewrite adjoint_read_write_zero.
        destruct (decide (id0 ∈ id0 :: take p ids)) as [|Hn];
          [|exfalso; apply Hn; by left].
        by destruct (decide (id0 ∈ take p ids)).
      * rewrite adjoint_read_write_ne by done.
        destruct (decide (id ∈ take p ids)) as [Hin|Hn];
          destruct (decide (id ∈ id0 :: take p ids)) as [Hin'|Hn']; try done.
        -- exfalso. apply Hn'. by right.
        -- apply elem_of_cons in Hin' as [?|?]; done.
  - intros id. rewrite Hleft.
    destruct (decide (id = id0)) as [->|Hne].
    + rewrite adjoint_read_write_zero.
      destruct (decide (id0 ∈ id0 :: ids)) as [|Hn];
        [|exfalso; apply Hn; by left].
      by destruct (decide (id0 ∈ ids)).
    + rewrite adjoint_read_write_ne by done.
      destruct (decide (id ∈ ids)) as [Hin|Hn];
        destruct (decide (id ∈ id0 :: ids)) as [Hin'|Hn']; try done.
      * exfalso. apply Hn'. by right.
      * apply elem_of_cons in Hin' as [?|?]; done.
Qed.

(** C3: for a record in which A is active and B is passive, the reverse
    replay
    - reads the output adjoints from the adjoint vector: the gradient at a
      position is the value the vector holds at the output identifier of that
      position (zero when the identifier occurred at an earlier position,
      its slot being cleared once read), and after the read the slots of the
      output identifiers are cleared and no other slot has changed;
    - adds the product of these output adjoints with the transposed B to A's
      gradient array and leaves B's gradient array as it is;
    - accumulates A's gradient array, and nothing else, into the adjoint
      vector: the identifiers of B play no part in the result, a slot that
      belongs neither to an identifier of A nor to an identifier of the
      output keeps its value, and when A's identifiers are pairwise different
      slots of the vector each receives the sum of what it held and its
      gradient. *)
Theorem reverse_active_A_passive_B (d : Restored) (adjoints : list Real)
    R_b_out adjoints1 A_b_in B_b_in :
  active_A d = true ->
  active_B d = false ->
  n d * k d <= length (gradientIn (A_store d)) ->
  reverse_gradients eigenStore d adjoints = (R_b_out, adjoints1, (A_b_in, B_b_in)) ->
  let out_ids := take (n d * m d) (identifierOut (R_store d)) in
  let in_ids := take (n d * k d) (identifierIn (A_store d)) in
  (length R_b_out = length out_ids /\
   forall p id, out_ids !! p = Some id ->
     R_b_out !! p =
     Some (if decide (id ∈ take p out_ids) then Real_zero
           else adjoint_read adjoints id)) /\
  (length adjoints1 = length adjoints /\
   forall id,
     adjoint_read adjoints1 id =
     if decide (id ∈ out_ids) then Real_zero else adjoint_read adjoints id) /\
  (forall i j, i < n d -> j < k d ->
     mapReal eigenStore A_b_in (n d) (k d) i j =
     plus (mapReal eigenStore (gradientIn (A_store d)) (n d) (k d))
       (product (mapReal eigenStore R_b_out (n d) (m d))
          (transpose (mapReal eigenStore (value (B_store d)) (k d) (m d)))
          (m d)) i j) /\
  B_b_in = gradientIn (B_store d) /\
  reverse eigenStore d adjoints =
    setGradients adjoints1 (n d * k d) true (identifierIn (A_store d)) A_b_in /\
  (forall B_identifiers,
     reverse eigenStore
       (mkRestored (active_A d) (active_B d) (A_store d)
          (mkStore (value (B_store d)) B_identifiers (gradientIn (B_store d))
             (identifierOut (B_store d)) (gradientOut (B_store d)))
          (R_store d) (n d) (k d) (m d)) adjoints =
     reverse eigenStore d adjoints) /\
  (forall id, id ∉ in_ids -> id ∉ out_ids ->
     adjoint_read (reverse eigenStore d adjoints) id = adjoint_read adjoints id) /\
  (NoDup in_ids ->
   Forall (fun i => (0 <= i < Z.of_nat (length adjoints))%Z) in_ids ->
   forall p id, in_ids !! p = Some id ->
     adjoint_read (reverse eigenStore d adjoints) id =
     Real_add (adjoint_read adjoints1 id) (nth p A_b_in Real_zero)).
Proof.
  intros HA HB Hlen Hg out_ids in_ids.
  assert (Hrev : reverse eigenStore d adjoints =
            setGradients adjoints1 (n d * k d) true (identifierIn (A_store d)) A_b_in).
  { unfold reverse. rewrite Hg, HA, HB. reflexivity. }
  assert (Hindep : forall B_identifiers,
     reverse eigenStore
       (mkRestored (active_A d) (active_B d) (A_store d)
          (mkStore (value (B_store d)) B_identifiers (gradientIn (B_store d))
             (identifierOut (B_store d)) (gradientOut (B_store d)))
          (R_store d) (n d) (k d) (m d)) adjoints =
     reverse eigenStore d adjoints).
  { intros B_identifiers. unfold reverse, reverse_gradients. simpl.
    rewrite HB. reflexivity. }
  unfold reverse_gradients in Hg.
  destruct (getGradients_loop_reset out_ids adjoints) as (HRlen & HRget & HRleft).
  pose proof (getGradients_loop_length true out_ids adjoints) as Hl.
  unfold getGradients in Hg. fold out_ids in Hg.
  destruct (getGradients_loop true out_ids adjoints) as [gs adj1] eqn:Hget.
  simpl in HRlen, HRget, HRleft, Hl.
  rewrite HA, HB, callReverse_active_A in Hg.
  injection Hg as -> -> <- <-.
  split; [split; [exact HRlen|exact HRget]|].
  split; [split; [exact Hl|exact HRleft]|].
  split; [|split; [reflexivity|split; [exact Hrev|split; [exact Hindep|split]]]].
  - intros i j Hi Hj. unfold mapReal. by rewrite mapEigen_assign.
  - intros id HidA HidR. rewrite Hrev. unfold setGradients.
    rewrite setGradients_loop_other by done.
    rewrite HRleft. destruct (decide (id ∈ out_ids)); done.
  - intros Hnd Hrange p id Hp. rewrite Hrev. unfold setGradients.
    apply setGradients_loop_accumulates; [done| |  |done].
    + by rewrite Hl.
    + rewrite assign_length. unfold in_ids. rewrite length_take. lia.
Qed.

(** When [store] records, the byte stores receive exactly the accesses of
    [store_accesses], and one record is pushed. *)
Lemma store_active_accesses (A B R : list ActiveType) (n k m : nat) (st : TapeState) :
  isActive A (n * k) || isActive B (k * m) = true ->
  byteData (fst (store eigenStore A B R n k m st)) = byteData st ++ store_accesses /\
  length (lowLevelFunctions (fst (store eigenStore A B R n k m st))) =
    S (length (lowLevelFunctions st)).
Proof.
  intros Hact. unfold store. rewrite Hact.
  destruct (callPrimal _ _ _ _ _ _ _ _ _ _ _ _ _) as [Rv Ri].
  destruct (setExternalFunctionOutput _ _ _ _ _ _) as [R' largest]. simpl.
  unfold registerOnTape.
  destruct (_ =? _)%Z; simpl; (split; [reflexivity|]);
    rewrite length_app; simpl; lia.
Qed.

(** *** The order of the data accesses *)

(** C4 (as amended): within the fixed segment and within the dynamic segment,
    [forward] reads the fields in the order in which [store] writes them;
    [reverse] and [del] read them in exactly the opposite order, the activity
    flags being written at both ends of the fixed segment; every replay
    routine finishes the fixed segment before it starts on the dynamic
    one. *)
Theorem replay_access_order :
  (forall seg, segment_order seg forward_accesses = segment_order seg store_accesses) /\
  (forall seg, segment_order seg reverse_accesses = rev (segment_order seg store_accesses)) /\
  del_accesses = reverse_accesses /\
  hd_error (segment_order Fixed store_accesses) = Some Activity /\
  last (segment_order Fixed store_accesses) = Some Activity /\
  fixed_before_dynamic forward_accesses = true /\
  fixed_before_dynamic reverse_accesses = true /\
  fixed_before_dynamic del_accesses = true.
Proof.
  split; [intros []; reflexivity|].
  split; [intros []; reflexivity|].
  repeat split; reflexivity.
Qed.

(** C4 as stated fails: [del] is not the reverse replay, yet it reads the
    fields of the fixed segment in another order than [store] writes them
    (the dimensions before the arrays, B before A). *)
Lemma del_access_order_counterexample :
  segment_order Fixed store_accesses =
    [Activity; Arg_A; Arg_B; Arg_R; Arg_n; Arg_k; Arg_m; Activity] /\
  segment_order Fixed del_accesses =
    [Activity; Arg_m; Arg_k; Arg_n; Arg_R; Arg_B; Arg_A; Activity] /\
  segment_order Fixed del_accesses <> segment_order Fixed store_accesses /\
  segment_order Dynamic del_accesses <> segment_order Dynamic store_accesses.
Proof. repeat split; try reflexivity; discriminate. Qed.

(** *** Registration *)

(** C6: on a tape on which the function is not yet registered ([ID] is the
    sentinel) and which returns a token other than the sentinel, the first
    call of [registerOnTape] registers one entry and stores the token the
    tape returned; the second call returns that same token and registers
    nothing: the tape is as the first call left it, with exactly one entry
    added.  The check is the comparison of [ID] with the sentinel: whenever
    [ID] is not the sentinel the call changes nothing. *)
Theorem registerOnTape_twice (st : TapeState) :
  ID st = LowLevelFunctionTokenInvalid ->
  registerLowLevelFunction_token (registeredFunctions st) <>
    LowLevelFunctionTokenInvalid ->
  ID (registerOnTape st) = registerLowLevelFunction_token (registeredFunctions st) /\
  registeredFunctions (registerOnTape st) =
    registeredFunctions st ++
      [Entry (Some Callback_reverse) (Some Callback_forward) None
         (Some Callback_del)] /\
  registerOnTape (registerOnTape st) = registerOnTape st /\
  ID (registerOnTape (registerOnTape st)) =
    registerLowLevelFunction_token (registeredFunctions st) /\
  registeredFunctions (registerOnTape (registerOnTape st)) =
    registeredFunctions st ++
      [Entry (Some Callback_reverse) (Some Callback_forward) None
         (Some Callback_del)] /\
  (forall st' : TapeState,
     ID st' <> LowLevelFunctionTokenInvalid -> registerOnTape st' = st').
Proof.
  intros Hid Htok.
  assert (Hcheck : forall st' : TapeState,
            ID st' <> LowLevelFunctionTokenInvalid -> registerOnTape st' = st').
  { intros st' Hne. unfold registerOnTape.
    destruct (Z.eqb_spec LowLevelFunctionTokenInvalid (ID st'));
      [congruence|reflexivity]. }
  assert (Hfirst : registerOnTape st =
            mkState (registerLowLevelFunction_token (registeredFunctions st))
              (registeredFunctions st ++
                 [Entry (Some Callback_reverse) (Some Callback_forward) None
                    (Some Callback_del)])
              (lowLevelFunctions st) (byteData st) (indexManager_largest st)).
  { unfold registerOnTape. rewrite Hid, Z.eqb_refl. reflexivity. }
  assert (Hsecond : registerOnTape (registerOnTape st) = registerOnTape st).
  { apply Hcheck. rewrite Hfirst. exact Htok. }
  rewrite Hsecond, Hfirst. simpl.
  repeat (split; [reflexivity|]). exact Hcheck.
Qed.

End Facts.

(** The witness of C10: A (2 x 2, row major) is active only in its second
    row, B is passive; position (1, 0) of the output is marked. *)
Lemma callPrimal_output_marker_witness :
  mapId RowMajor
    (snd (@callPrimal ZReal RowMajor (true || false) [1; 2; 3; 4]%Z true [0; 0; 0; 7]%Z
            [5; 6; 7; 8]%Z false [] [0; 0; 0; 0]%Z [0; 0; 0; 0]%Z 2 2 2))
    2 2 1 0 <> 0%Z.
Proof.
  apply (@callPrimal_output_marker ZReal RowMajor [1; 2; 3; 4]%Z true [0; 0; 0; 7]%Z
           [5; 6; 7; 8]%Z false [] [0; 0; 0; 0]%Z [0; 0; 0; 0]%Z 2 2 2 1 0).
  - reflexivity.
  - simpl. lia.
  - lia.
  - lia.
  - left. split; [reflexivity|]. exists 1. split; [lia|]. vm_compute. discriminate.
Defined.

(** The witness of C6: a first registration on a tape with two entries. *)
Lemma registerOnTape_twice_witness :
  registerOnTape (registerOnTape (ZState 65535 [Entry None None None None; Entry None None None None] [] [] 0)) =
  registerOnTape (ZState 65535 [Entry None None None None; Entry None None None None] [] [] 0) /\
  ID (registerOnTape (registerOnTape (ZState 65535 [Entry None None None None; Entry None None None None] [] [] 0))) = 2%Z.
Proof.
  destruct (@registerOnTape_twice ExampleEnv
              (ZState 65535 [Entry None None None None; Entry None None None None] [] [] 0))
    as (_ & _ & Hsame & Hid & _).
  - reflexivity.
  - vm_compute. discriminate.
  - split; [exact Hsame|exact Hid].
Defined.

(** The witness of C5: two passive 2 x 2 matrices (row major) on a tape with
    nothing registered. *)
Lemma store_passive_witness :
  fst (store RowMajor [ZActive 1 0; ZActive 2 0; ZActive 3 0; ZActive 4 0]
         [ZActive 5 0; ZActive 6 0; ZActive 7 0; ZActive 8 0]
         [ZActive 0 0; ZActive 0 0; ZActive 0 0; ZActive 0 0] 2 2 2
         (ZState 65535 [] [] [] 0)) = ZState 65535 [] [] [] 0 /\
  snd (store RowMajor [ZActive 1 0; ZActive 2 0; ZActive 3 0; ZActive 4 0]
         [ZActive 5 0; ZActive 6 0; ZActive 7 0; ZActive 8 0]
         [ZActive 0 0; ZActive 0 0; ZActive 0 0; ZActive 0 0] 2 2 2
         (ZState 65535 [] [] [] 0)) =
    [ZActive 19 0; ZActive 22 0; ZActive 43 0; ZActive 50 0].
Proof.
  split; [|reflexivity].
  apply (@store_passive ZReal ExampleEnv RowMajor
           [ZActive 1 0; ZActive 2 0; ZActive 3 0; ZActive 4 0]
           [ZActive 5 0; ZActive 6 0; ZActive 7 0; ZActive 8 0]
           [ZActive 0 0; ZActive 0 0; ZActive 0 0; ZActive 0 0] 2 2 2
           (ZState 65535 [] [] [] 0)).
  - repeat constructor.
  - repeat constructor.
  - simpl. lia.
Defined.

(** The witness of C3: the 2 x 2 x 2 record of the specification (row major),
    A active with identifiers 1 to 4, B passive with values 5 to 8, the
    output with identifiers 5 to 8 and adjoints 1 to 4. *)
Lemma reverse_active_A_passive_B_witness :
  reverse RowMajor
    (ZRestored true false (ZStore [] [1; 2; 3; 4]%Z [0; 0; 0; 0]%Z [] [])
       (ZStore [5; 6; 7; 8]%Z [] [] [] [])
       (ZStore [] [] [] [5; 6; 7; 8]%Z [0; 0; 0; 0]%Z) 2 2 2)
    [0; 0; 0; 0; 0; 1; 2; 3; 4]%Z = [0; 17; 23; 39; 53; 0; 0; 0; 0]%Z /\
  (forall id : Z,
     id ∉ [1; 2; 3; 4]%Z -> id ∉ [5; 6; 7; 8]%Z ->
     adjoint_read
       (reverse RowMajor
          (ZRestored true false (ZStore [] [1; 2; 3; 4]%Z [0; 0; 0; 0]%Z [] [])
             (ZStore [5; 6; 7; 8]%Z [] [] [] [])
             (ZStore [] [] [] [5; 6; 7; 8]%Z [0; 0; 0; 0]%Z) 2 2 2)
          [0; 0; 0; 0; 0; 1; 2; 3; 4]%Z) id =
     adjoint_read [0; 0; 0; 0; 0; 1; 2; 3; 4]%Z id).
Proof.
  destruct (@reverse_active_A_passive_B ZReal RowMajor
              (ZRestored true false (ZStore [] [1; 2; 3; 4]%Z [0; 0; 0; 0]%Z [] [])
                 (ZStore [5; 6; 7; 8]%Z [] [] [] [])
                 (ZStore [] [] [] [5; 6; 7; 8]%Z [0; 0; 0; 0]%Z) 2 2 2)
              [0; 0; 0; 0; 0; 1; 2; 3; 4]%Z
              [1; 2; 3; 4]%Z [0; 0; 0; 0; 0; 0; 0; 0; 0]%Z [17; 23; 39; 53]%Z [])
    as (_ & _ & _ & _ & Hrev & _ & Hother & _).
  - reflexivity.
  - reflexivity.
  - simpl. lia.
  - reflexivity.
  - split; [reflexivity|exact Hother].
Defined.

(** The same record stored column major. *)
Example reverse_column_major :
  reverse ColMajor
    (ZRestored true false (ZStore [] [1; 2; 3; 4]%Z [0; 0; 0; 0]%Z [] [])
       (ZStore [5; 6; 7; 8]%Z [] [] [] [])
       (ZStore [] [] [] [5; 6; 7; 8]%Z [0; 0; 0; 0]%Z) 2 2 2)
    [0; 0; 0; 0; 0; 1; 2; 3; 4]%Z = [0; 26; 38; 30; 44; 0; 0; 0; 0]%Z.
Proof. reflexivity. Qed.

(** A recording call: A carries identifiers in its first row, B is passive.
    The function is registered, one record is pushed, the byte stores are
    written in the order of [store_accesses], and the outputs of the first
    row receive the next two identifiers. *)
Example store_active_A :
  store RowMajor [ZActive 1 1; ZActive 2 2; ZActive 3 0; ZActive 4 0]
    [ZActive 5 0; ZActive 6 0; ZActive 7 0; ZActive 8 0]
    [ZActive 0 0; ZActive 0 0; ZActive 0 0; ZActive 0 0] 2 2 2
    (ZState 65535 [] [] [] 2) =
  (ZState 0
     [Entry (Some Callback_reverse) (Some Callback_forward) None (Some Callback_del)]
     [(0%Z, 29, 144)] store_accesses 4,
   [ZActive 19 3; ZActive 22 4; ZActive 43 0; ZActive 50 0]).
Proof. reflexivity. Qed.

End ExtFuncFacts.

(** ** Further properties of the Jacobian base tape *)

Module JacobianBaseTapeMore.

Import MachineInt MachineIntFacts JacobianBaseTape JacobianBaseTapeFacts.

Section Facts.
Context `{TapeImpl}.

Implicit Types (t : Tape) (identifier : Z).

Lemma checkAdjointSize_in_range t identifier :
  (Z.of_nat (length (adjoints t)) <= Int_max)%Z ->
  (identifier < Z.of_nat (length (adjoints t)))%Z ->
  checkAdjointSize t identifier = t.
Proof.
  intros Hs Hi. unfold checkAdjointSize, LocalAdjoints_size.
  rewrite Identifier_of_size_t_small by done.
  destruct (Z.leb_spec (Z.of_nat (length (adjoints t))) identifier); [lia|done].
Qed.

Lemma checkAdjointSize_beyond t identifier :
  is_int identifier ->
  (Z.of_nat (length (adjoints t)) <= identifier)%Z ->
  checkAdjointSize t identifier = resizeAdjointsVector t.
Proof.
  intros Hint Hi. unfold checkAdjointSize, LocalAdjoints_size.
  rewrite Identifier_of_size_t_small by (unfold is_int in Hint; lia).
  destruct (Z.leb_spec (Z.of_nat (length (adjoints t))) identifier); [done|lia].
Qed.

(** X1: for an identifier inside the adjoint vector the const accessor
    returns the value of that slot. *)
Theorem gradient_const_in_range t identifier :
  (Z.of_nat (length (adjoints t)) <= Int_max)%Z ->
  (0 <= identifier < Z.of_nat (length (adjoints t)))%Z ->
  gradient_const t identifier = adjoints t !! Z.to_nat identifier /\
  is_Some (gradient_const t identifier).
Proof.
  intros Hs Hi. unfold gradient_const, LocalAdjoints_size.
  rewrite Identifier_of_size_t_small by done.
  destruct (Z.ltb_spec (Z.of_nat (length (adjoints t))) identifier); [lia|].
  destruct (LocalAdjoints_at_in_range (adjoints t) identifier Hi) as [-> Hsome].
  done.
Qed.

(** X2: the const accessor reads inside the adjoint vector exactly for the
    identifiers of existing slots and for the identifiers larger than the
    size; an identifier equal to the size and a negative identifier index
    outside the vector. *)
Theorem gradient_const_in_bounds_iff t identifier :
  adjoints t <> [] ->
  (Z.of_nat (length (adjoints t)) <= Int_max)%Z ->
  is_Some (gradient_const t identifier) <->
  (0 <= identifier < Z.of_nat (length (adjoints t)))%Z \/
  (Z.of_nat (length (adjoints t)) < identifier)%Z.
Proof.
  intros Hne Hs. unfold gradient_const, LocalAdjoints_size.
  rewrite Identifier_of_size_t_small by done.
  destruct (Z.ltb_spec (Z.of_nat (length (adjoints t))) identifier) as [Hgt|Hle].
  - rewrite LocalAdjoints_at_0. split; [intros _; by right|].
    intros _. by apply nonempty_lookup_0.
  - split.
    + intros Hsome. left. unfold LocalAdjoints_at in Hsome.
      destruct (Z.ltb_spec identifier 0) as [|Hnn]; [by destruct Hsome|].
      apply lookup_lt_is_Some in Hsome. lia.
    + intros [Hin|Hgt]; [|lia].
      by destruct (LocalAdjoints_at_in_range (adjoints t) identifier Hin) as [-> ?].
Qed.

(** X3: for an identifier inside the adjoint vector the mutating accessor
    leaves the tape as it is and returns a reference to that slot. *)
Theorem gradient_in_range t identifier :
  (Z.of_nat (length (adjoints t)) <= Int_max)%Z ->
  (0 <= identifier < Z.of_nat (length (adjoints t)))%Z ->
  gradient t identifier = (t, Some (Z.to_nat identifier)).
Proof.
  intros Hs Hi. unfold gradient.
  rewrite checkAdjointSize_in_range by (done || lia).
  by destruct (LocalAdjoints_at_in_range (adjoints t) identifier Hi) as [-> [g ->]].
Qed.

(** X4: after the mutating accessor has grown the vector for an identifier
    beyond it, the const accessor reads the additive identity at that
    identifier and the former values at the identifiers of the former
    slots. *)
Theorem gradient_then_gradient_const t identifier :
  index_ok (largestCreatedIndex t) ->
  (Z.of_nat (length (adjoints t)) <= identifier <= largestCreatedIndex t)%Z ->
  gradient_const (fst (gradient t identifier)) identifier = Some Gradient_zero /\
  forall j, (0 <= j < Z.of_nat (length (adjoints t)))%Z ->
    gradient_const (fst (gradient t identifier)) j = adjoints t !! Z.to_nat j.
Proof.
  intros Hl Hi. pose proof Hl as Hl'. unfold index_ok in Hl'.
  unfold gradient. simpl.
  rewrite checkAdjointSize_beyond by (unfold is_int, Int_min; lia).
  pose proof (resizeAdjointsVector_length t Hl) as Hlen.
  assert (Hread : forall j, (0 <= j <= largestCreatedIndex t)%Z ->
            gradient_const (resizeAdjointsVector t) j =
            adjoints (resizeAdjointsVector t) !! Z.to_nat j).
  { intros j Hj. unfold gradient_const, LocalAdjoints_size.
    rewrite Identifier_of_size_t_small by lia.
    destruct (Z.ltb_spec (Z.of_nat (length (adjoints (resizeAdjointsVector t)))) j);
      [lia|].
    apply LocalAdjoints_at_in_range. lia. }
  split.
  - rewrite Hread by lia.
    unfold resizeAdjointsVector, LocalAdjoints_resize in *. simpl in *.
    rewrite length_resize in Hlen. rewrite Hlen.
    apply lookup_resize_new; lia.
  - intros j Hj. rewrite Hread by lia.
    unfold resizeAdjointsVector, LocalAdjoints_resize in *. simpl in *.
    rewrite length_resize in Hlen. rewrite Hlen.
    apply lookup_resize; lia.
Qed.

(** X5: the mutating accessor called with an identifier beyond the vector
    that is larger than the largest created index cuts a vector that is
    longer than the largest created index plus one down to that size, and
    the returned reference points outside the vector. *)
Theorem gradient_unissued_identifier_truncates t identifier :
  index_ok (largestCreatedIndex t) ->
  is_int identifier ->
  (largestCreatedIndex t + 1 <= Z.of_nat (length (adjoints t)) <= identifier)%Z ->
  adjoints (fst (gradient t identifier)) =
    take (Z.to_nat (largestCreatedIndex t + 1)) (adjoints t) /\
  snd (gradient t identifier) = None.
Proof.
  intros Hl Hint Hi. pose proof Hl as Hl'. unfold index_ok in Hl'.
  unfold gradient. simpl.
  rewrite checkAdjointSize_beyond by (done || lia).
  pose proof (resizeAdjointsVector_length t Hl) as Hlen.
  rewrite LocalAdjoints_at_beyond by lia. split; [|reflexivity].
  unfold resizeAdjointsVector, LocalAdjoints_resize in *. simpl in *.
  rewrite length_resize in Hlen. rewrite Hlen. apply resize_le. lia.
Qed.

(** The data of an evaluation call is the vector, extended when needed. *)
Lemma evaluation_data_extends t :
  index_ok (largestCreatedIndex t) ->
  (Z.of_nat (length (adjoints t)) <= Int_max)%Z ->
  evaluation_data t =
    adjoints t ++
    replicate (Z.to_nat (largestCreatedIndex t + 1) - length (adjoints t))
      Gradient_zero /\
  length (evaluation_data t) =
    length (adjoints t) `max` Z.to_nat (largestCreatedIndex t + 1).
Proof.
  intros Hl Hs. pose proof Hl as Hl'. unfold index_ok in Hl'.
  unfold evaluation_data.
  destruct (Z.le_gt_cases (Z.of_nat (length (adjoints t))) (largestCreatedIndex t))
    as [Hle|Hgt].
  - rewrite checkAdjointSize_beyond by (unfold is_int, Int_min; lia).
    pose proof (resizeAdjointsVector_length t Hl) as Hlen.
    split; [|lia].
    unfold resizeAdjointsVector, LocalAdjoints_resize in *. simpl in *.
    rewrite length_resize in Hlen. rewrite Hlen. apply resize_ge. lia.
  - rewrite checkAdjointSize_in_range by lia.
    replace (Z.to_nat (largestCreatedIndex t + 1) - length (adjoints t)) with 0
      by lia.
    simpl. rewrite app_nil_r. split; [reflexivity|lia].
Qed.

(** X6: an evaluation call never drops a slot: its sweep is started on the
    adjoint vector extended by value-initialised slots up to the largest
    created index (by no slot when the vector is already that large). *)
Theorem evaluation_extends t :
  index_ok (largestCreatedIndex t) ->
  (Z.of_nat (length (adjoints t)) <= Int_max)%Z ->
  evaluation_data t =
    adjoints t ++
    replicate (Z.to_nat (largestCreatedIndex t + 1) - length (adjoints t))
      Gradient_zero /\
  length (evaluation_data t) =
    length (adjoints t) `max` Z.to_nat (largestCreatedIndex t + 1).
Proof. apply evaluation_data_extends. Qed.

(** X23: after [clearAdjoints] every read of the const accessor that is
    inside the vector returns the additive identity, whatever the
    identifier. *)
Theorem clearAdjoints_then_gradient_const t identifier (g : Gradient) :
  gradient_const (clearAdjoints t) identifier = Some g -> g = Gradient_zero.
Proof.
  unfold gradient_const, clearAdjoints, LocalAdjoints_zeroAll, LocalAdjoints_at.
  simpl. intros Hg.
  assert (Hz : forall i, ((fun _ => Gradient_zero) <$> adjoints t) !! i = Some g ->
                 g = Gradient_zero).
  { intros i Hi. rewrite list_lookup_fmap in Hi.
    destruct (adjoints t !! i); simpl in Hi; congruence. }
  destruct (_ <? identifier)%Z; simpl in Hg; [by apply (Hz 0)|].
  destruct (identifier <? 0)%Z; [discriminate|]. by apply (Hz (Z.to_nat identifier)).
Qed.

(** X7: after an evaluation call a second evaluation call finds the vector
    large enough: its sweep is started on the vector the first one left. *)
Theorem evaluation_twice t (start end_ start' end_' : Position) :
  index_ok (largestCreatedIndex t) ->
  (Z.of_nat (length (adjoints t)) <= Int_max)%Z ->
  evaluation_data (evaluate t start end_) = adjoints (evaluate t start end_) /\
  evaluation_data (evaluateForward t start end_) =
    adjoints (evaluateForward t start end_) /\
  evaluate (evaluate t start end_) start' end_' =
    mkTape (Impl_evaluate start' end_' (Impl_evaluate start end_ (evaluation_data t)))
      (largestCreatedIndex t).
Proof.
  intros Hl Hs. pose proof Hl as Hl'. unfold index_ok in Hl'.
  destruct (evaluation_data_extends t Hl Hs) as [_ Hlen].
  assert (Hlen_e : length (adjoints (evaluate t start end_)) =
                   length (evaluation_data t)).
  { unfold evaluate. simpl. apply Impl_evaluate_length. }
  assert (Hlen_f : length (adjoints (evaluateForward t start end_)) =
                   length (evaluation_data t)).
  { unfold evaluateForward. simpl. apply Impl_evaluateForward_length. }
  assert (Hlar_e : largestCreatedIndex (evaluate t start end_) =
                   largestCreatedIndex t).
  { unfold evaluate. simpl. apply checkAdjointSize_largest. }
  assert (Hlar_f : largestCreatedIndex (evaluateForward t start end_) =
                   largestCreatedIndex t).
  { unfold evaluateForward. simpl. apply checkAdjointSize_largest. }
  assert (He : evaluation_data (evaluate t start end_) =
               adjoints (evaluate t start end_)).
  { unfold evaluation_data at 1.
    rewrite checkAdjointSize_in_range; [done| |]; rewrite ?Hlar_e, Hlen_e; lia. }
  split; [exact He|]. split.
  - unfold evaluation_data at 1.
    rewrite checkAdjointSize_in_range; [done| |]; rewrite ?Hlar_f, Hlen_f; lia.
  - unfold evaluate at 1. fold (evaluation_data (evaluate t start end_)).
    rewrite He, checkAdjointSize_largest, Hlar_e. reflexivity.
Qed.

(** X8: [setParameter(AdjointSize, value)] followed by
    [getParameter(AdjointSize)] returns [value]; the slots below both sizes
    keep their values and the slots that are new hold the additive
    identity. *)
Theorem setParameter_getParameter t (value : nat) :
  getParameter_AdjointSize (setParameter_AdjointSize t value) = value /\
  (forall i, i < value -> i < length (adjoints t) ->
     adjoints (setParameter_AdjointSize t value) !! i = adjoints t !! i) /\
  (forall i, length (adjoints t) <= i < value ->
     adjoints (setParameter_AdjointSize t value) !! i = Some Gradient_zero) /\
  largestCreatedIndex (setParameter_AdjointSize t value) = largestCreatedIndex t.
Proof.
  unfold getParameter_AdjointSize, setParameter_AdjointSize, LocalAdjoints_size,
    LocalAdjoints_resize. simpl.
  split; [apply length_resize|]. split; [|split; [|reflexivity]].
  - intros i Hi Hl. by apply lookup_resize.
  - intros i [Hl Hi]. by apply lookup_resize_new.
Qed.

(** X9: [deleteAdjointVector] keeps the value of slot 0 and nothing else;
    the evaluation call after it starts its sweep on that value followed by
    value-initialised slots up to the largest created index. *)
Theorem deleteAdjointVector_keeps_slot_0 t (g : Gradient) :
  index_ok (largestCreatedIndex t) ->
  adjoints t !! 0 = Some g ->
  adjoints (deleteAdjointVector t) = [g] /\
  evaluation_data (deleteAdjointVector t) =
    g :: replicate (Z.to_nat (largestCreatedIndex t)) Gradient_zero.
Proof.
  intros Hl Hg. pose proof Hl as Hl'. unfold index_ok in Hl'.
  assert (Hd : adjoints (deleteAdjointVector t) = [g]).
  { unfold deleteAdjointVector, LocalAdjoints_resize. simpl.
    destruct (adjoints t) as [|g0 a]; [done|]. simpl in Hg.
    injection Hg as ->. simpl. by rewrite resize_0. }
  split; [exact Hd|].
  destruct (evaluation_data_extends (deleteAdjointVector t)) as [-> _].
  - done.
  - rewrite Hd. simpl. unfold Int_max. lia.
  - rewrite Hd. simpl. f_equal. f_equal. lia.
Qed.

End Facts.

Lemma gradient_const_in_range_witness :
  gradient_const (ZTape_of [5; 6; 7]%Z 2) 1 = Some 6%Z.
Proof.
  refine (proj1 (gradient_const_in_range (ZTape_of [5; 6; 7]%Z 2) 1 _ _)).
  - simpl. unfold Int_max. lia.
  - simpl. lia.
Defined.

Lemma gradient_const_in_bounds_iff_witness :
  ~ is_Some (gradient_const (ZTape_of [5; 6; 7]%Z 2) 3).
Proof.
  intros Hs.
  apply (gradient_const_in_bounds_iff (ZTape_of [5; 6; 7]%Z 2) 3) in Hs.
  - simpl in Hs. lia.
  - discriminate.
  - simpl. unfold Int_max. lia.
Defined.

Lemma gradient_in_range_witness :
  gradient (ZTape_of [5; 6; 7]%Z 9) 2 = (ZTape_of [5; 6; 7]%Z 9, Some 2%nat).
Proof.
  apply (gradient_in_range (ZTape_of [5; 6; 7]%Z 9) 2).
  - simpl. unfold Int_max. lia.
  - simpl. lia.
Defined.

Lemma gradient_then_gradient_const_witness :
  gradient_const (fst (gradient (ZTape_of [5; 6]%Z 4) 3)) 3 = Some 0%Z.
Proof.
  refine (proj1 (gradient_then_gradient_const (ZTape_of [5; 6]%Z 4) 3 _ _)).
  - unfold index_ok, Int_max. simpl. lia.
  - simpl. lia.
Defined.

Lemma gradient_unissued_identifier_truncates_witness :
  adjoints (fst (gradient (ZTape_of [1; 2; 3; 4]%Z 1) 4)) = [1; 2]%Z /\
  snd (gradient (ZTape_of [1; 2; 3; 4]%Z 1) 4) = None.
Proof.
  apply (gradient_unissued_identifier_truncates (ZTape_of [1; 2; 3; 4]%Z 1) 4).
  - unfold index_ok, Int_max. simpl. lia.
  - unfold is_int, Int_min, Int_max. lia.
  - simpl. lia.
Defined.

Lemma evaluation_extends_witness :
  evaluation_data (ZTape_of [7; 8]%Z 4) = [7; 8; 0; 0; 0]%Z.
Proof.
  refine (proj1 (evaluation_extends (ZTape_of [7; 8]%Z 4) _ _)).
  - unfold index_ok, Int_max. simpl. lia.
  - simpl. unfold Int_max. lia.
Defined.

Lemma evaluation_twice_witness :
  evaluation_data (evaluate (ZTape_of [7; 8]%Z 4) 0%nat 1%nat) =
  adjoints (evaluate (ZTape_of [7; 8]%Z 4) 0%nat 1%nat).
Proof.
  refine (proj1 (evaluation_twice (ZTape_of [7; 8]%Z 4) 0%nat 1%nat 0%nat 1%nat _ _)).
  - unfold index_ok, Int_max. simpl. lia.
  - simpl. unfold Int_max. lia.
Defined.

Lemma deleteAdjointVector_keeps_slot_0_witness :
  adjoints (deleteAdjointVector (ZTape_of [7; 8; 9]%Z 2)) = [7]%Z /\
  evaluation_data (deleteAdjointVector (ZTape_of [7; 8; 9]%Z 2)) = [7; 0; 0]%Z.
Proof.
  apply (deleteAdjointVector_keeps_slot_0 (ZTape_of [7; 8; 9]%Z 2) 7%Z).
  - unfold index_ok, Int_max. simpl. lia.
  - reflexivity.
Defined.

Lemma clearAdjoints_then_gradient_const_witness :
  gradient_const (clearAdjoints (ZTape_of [5; 6; 7]%Z 2)) 9 = Some 0%Z /\
  0%Z = @Gradient_zero ZTape.
Proof.
  split; [reflexivity|].
  apply (clearAdjoints_then_gradient_const (ZTape_of [5; 6; 7]%Z 2) 9 0%Z).
  reflexivity.
Defined.

End JacobianBaseTapeMore.

(** ** Further properties of the low level function *)

Module ExtFuncMore.

Import Eigen EigenFacts ExtFunc_matrixMatrixMultiplication ExtFuncFacts.

Section Facts.
Context {RO : RealOps} {Env : LowLevelFunctionEnv}.
Variable eigenStore : StorageOptions.

(** X10: [callPrimal] writes the product of A and B into R whether or not
    the function is recorded, and without recording it leaves the output
    identifier array alone. *)
Theorem callPrimal_product active A active_A A_i_in B active_B B_i_in R R_i_out
    n k m :
  n * m <= length R ->
  length (fst (callPrimal eigenStore active A active_A A_i_in B active_B B_i_in
                 R R_i_out n k m)) = length R /\
  (forall i j, i < n -> j < m ->
     mapReal eigenStore
       (fst (callPrimal eigenStore active A active_A A_i_in B active_B B_i_in
               R R_i_out n k m)) n m i j =
     product (mapReal eigenStore A n k) (mapReal eigenStore B k m) k i j) /\
  (active = false ->
   snd (callPrimal eigenStore active A active_A A_i_in B active_B B_i_in
          R R_i_out n k m) = R_i_out).
Proof.
  intros Hlen. unfold callPrimal. simpl.
  split; [apply assign_length|]. split.
  - intros i j Hi Hj. unfold mapReal. by rewrite mapEigen_assign.
  - intros ->. reflexivity.
Qed.

(** X11: the identifier [callPrimal] leaves at an output position of a
    recorded call is the number of active inputs that reach it: 0, 1 or 2,
    and 2 exactly when both A's row and B's column carry an identifier. *)
Theorem callPrimal_marker_count A active_A A_i_in B active_B B_i_in R R_i_out
    n k m i j :
  n * m <= length R_i_out -> i < n -> j < m ->
  let marker :=
    mapId eigenStore
      (snd (callPrimal eigenStore true A active_A A_i_in B active_B B_i_in
              R R_i_out n k m)) n m i j in
  (0 <= marker <= 2)%Z /\
  (marker = 2%Z <->
   (active_A = true /\ rowwise_any (mapId eigenStore A_i_in n k) k i = true) /\
   (active_B = true /\ colwise_any (mapId eigenStore B_i_in k m) k j = true)).
Proof.
  intros Hlen Hi Hj marker. subst marker.
  rewrite callPrimal_marker_value by done.
  destruct active_A, active_B;
    destruct (rowwise_any _ k i), (colwise_any _ k j); simpl;
    (split; [lia|]); intuition (try discriminate; try lia).
Qed.

(** X12: [callForward] adds to the output tangent at [(i, j)] the product of
    A's tangent with B when A is active and the product of A with B's
    tangent when B is active, and writes the primal product into R. *)
Theorem callForward_coefficients A active_A A_d_in B active_B B_d_in R R_d_out
    n k m i j :
  n * m <= length R_d_out -> n * m <= length R -> i < n -> j < m ->
  mapReal eigenStore
    (snd (callForward eigenStore A active_A A_d_in B active_B B_d_in
            R R_d_out n k m)) n m i j =
  (let t0 := mapReal eigenStore R_d_out n m i j in
   let t1 :=
     if active_A
     then Real_add t0
            (product (mapReal eigenStore A_d_in n k) (mapReal eigenStore B k m) k i j)
     else t0 in
   if active_B
   then Real_add t1
          (product (mapReal eigenStore A n k) (mapReal eigenStore B_d_in k m) k i j)
   else t1) /\
  mapReal eigenStore
    (fst (callForward eigenStore A active_A A_d_in B active_B B_d_in
            R R_d_out n k m)) n m i j =
  product (mapReal eigenStore A n k) (mapReal eigenStore B k m) k i j.
Proof.
  intros Hd Hr Hi Hj. unfold callForward, mapReal. simpl. split.
  - destruct active_A, active_B; unfold plus;
      rewrite ?mapEigen_assign; rewrite ?assign_length; done.
  - by rewrite mapEigen_assign.
Qed.

(** X13: [callReverse] adds to A's gradient at [(i, l)] the product of the
    output gradient with the transposed B when A is active, adds to B's
    gradient at [(l, j)] the product of the transposed A with the output
    gradient when B is active, and changes nothing of a passive input; the
    arrays keep their sizes. *)
Theorem callReverse_coefficients A active_A A_b_in B active_B B_b_in R R_b_out
    n k m :
  length (fst (callReverse eigenStore A active_A A_b_in B active_B B_b_in
                 R R_b_out n k m)) = length A_b_in /\
  length (snd (callReverse eigenStore A active_A A_b_in B active_B B_b_in
                 R R_b_out n k m)) = length B_b_in /\
  (active_A = false ->
   fst (callReverse eigenStore A active_A A_b_in B active_B B_b_in
          R R_b_out n k m) = A_b_in) /\
  (active_B = false ->
   snd (callReverse eigenStore A active_A A_b_in B active_B B_b_in
          R R_b_out n k m) = B_b_in) /\
  (active_A = true -> n * k <= length A_b_in ->
   forall i l, i < n -> l < k ->
     mapReal eigenStore
       (fst (callReverse eigenStore A active_A A_b_in B active_B B_b_in
               R R_b_out n k m)) n k i l =
     Real_add (mapReal eigenStore A_b_in n k i l)
       (dot (fun j => Real_mul (mapReal eigenStore R_b_out n m i j)
                        (mapReal eigenStore B k m l j)) m)) /\
  (active_B = true -> k * m <= length B_b_in ->
   forall l j, l < k -> j < m ->
     mapReal eigenStore
       (snd (callReverse eigenStore A active_A A_b_in B active_B B_b_in
               R R_b_out n k m)) k m l j =
     Real_add (mapReal eigenStore B_b_in k m l j)
       (dot (fun i => Real_mul (mapReal eigenStore A n k i l)
                        (mapReal eigenStore R_b_out n m i j)) n)).
Proof.
  unfold callReverse. simpl.
  split; [destruct active_A; [apply assign_length|done]|].
  split; [destruct active_B; [apply assign_length|done]|].
  split; [by intros ->|]. split; [by intros ->|]. split.
  - intros -> Hlen i l Hi Hl. unfold mapReal. by rewrite mapEigen_assign.
  - intros -> Hlen l j Hl Hj. unfold mapReal. by rewrite mapEigen_assign.
Qed.

(** *** Replays and the adjoint vector *)

Lemma getGradients_loop_read identifiers : forall (adjoints : list Real),
  getGradients_loop false identifiers adjoints =
  (adjoint_read adjoints <$> identifiers, adjoints).
Proof.
  induction identifiers as [|id ids IH]; intros adjoints; simpl; [done|].
  by rewrite IH.
Qed.

Lemma setGradients_loop_overwrites identifiers :
  forall gradients (adjoints : list Real) p id,
  NoDup identifiers ->
  Forall (fun i => (0 <= i < Z.of_nat (length adjoints))%Z) identifiers ->
  length identifiers <= length gradients ->
  identifiers !! p = Some id ->
  adjoint_read (setGradients_loop false identifiers gradients adjoints) id =
  nth p gradients Real_zero.
Proof.
  induction identifiers as [|id0 ids IH];
    intros gradients adjoints p id Hnd Hrange Hlen Hp; [done|].
  destruct gradients as [|g gs]; [simpl in Hlen; lia|].
  apply NoDup_cons in Hnd as [Hnotin Hnd].
  apply Forall_cons in Hrange as [Hr0 Hrange].
  simpl. destruct p as [|p]; simpl in Hp.
  - injection Hp as ->.
    rewrite setGradients_loop_other by done.
    by rewrite adjoint_read_write_eq.
  - rewrite (IH gs _ p id); [done|done| |simpl in Hlen; lia|done].
    rewrite adjoint_write_length. exact Hrange.
Qed.

(** X14: a reverse replay changes only slots of the output's identifiers and
    of the identifiers of the active inputs: every other slot, and so every
    slot that belongs to a passive input alone, keeps its value, and the
    vector keeps its size. *)
Theorem reverse_frame (d : Restored) (adjoints : list Real) id :
  id ∉ take (n d * m d) (identifierOut (R_store d)) ->
  (active_A d = true -> id ∉ take (n d * k d) (identifierIn (A_store d))) ->
  (active_B d = true -> id ∉ take (k d * m d) (identifierIn (B_store d))) ->
  adjoint_read (reverse eigenStore d adjoints) id = adjoint_read adjoints id /\
  length (reverse eigenStore d adjoints) = length adjoints.
Proof.
  intros HR HA HB. unfold reverse, reverse_gradients.
  pose proof (getGradients_loop_other true
                (take (n d * m d) (identifierOut (R_store d))) adjoints id HR) as Ho.
  pose proof (getGradients_loop_length true
                (take (n d * m d) (identifierOut (R_store d))) adjoints) as Hl.
  unfold getGradients.
  destruct (getGradients_loop true _ adjoints) as [R_b_out adjoints1].
  simpl in Ho, Hl.
  destruct (callReverse _ _ _ _ _ _ _ _ _ _ _ _) as [A_b_in B_b_in].
  unfold setGradients.
  destruct (active_A d), (active_B d);
    rewrite ?setGradients_loop_other, ?setGradients_loop_length by auto; done.
Qed.

(** X15: for a record in which B is active and A is passive, the reverse
    replay reads the output adjoints from the adjoint vector (the value at
    the output identifier of each position, zero when the identifier occurred
    at an earlier position; afterwards the slots of the output identifiers
    are cleared and no other slot has changed), adds the product of the
    transposed A with these output adjoints to B's gradient array, leaves
    A's gradient array as it is and accumulates B's gradient array, and
    nothing else, into the adjoint vector. *)
Theorem reverse_passive_A_active_B (d : Restored) (adjoints : list Real)
    R_b_out adjoints1 A_b_in B_b_in :
  active_A d = false ->
  active_B d = true ->
  k d * m d <= length (gradientIn (B_store d)) ->
  reverse_gradients eigenStore d adjoints = (R_b_out, adjoints1, (A_b_in, B_b_in)) ->
  let out_ids := take (n d * m d) (identifierOut (R_store d)) in
  let in_ids := take (k d * m d) (identifierIn (B_store d)) in
  (length R_b_out = length out_ids /\
   forall p id, out_ids !! p = Some id ->
     R_b_out !! p =
     Some (if decide (id ∈ take p out_ids) then Real_zero
           else adjoint_read adjoints id)) /\
  (length adjoints1 = length adjoints /\
   forall id,
     adjoint_read adjoints1 id =
     if decide (id ∈ out_ids) then Real_zero else adjoint_read adjoints id) /\
  (forall l j, l < k d -> j < m d ->
     mapReal eigenStore B_b_in (k d) (m d) l j =
     plus (mapReal eigenStore (gradientIn (B_store d)) (k d) (m d))
       (product (transpose (mapReal eigenStore (value (A_store d)) (n d) (k d)))
          (mapReal eigenStore R_b_out (n d) (m d)) (n d)) l j) /\
  A_b_in = gradientIn (A_store d) /\
  reverse eigenStore d adjoints =
    setGradients adjoints1 (k d * m d) true (identifierIn (B_store d)) B_b_in /\
  (forall id, id ∉ in_ids -> id ∉ out_ids ->
     adjoint_read (reverse eigenStore d adjoints) id = adjoint_read adjoints id) /\
  (NoDup in_ids ->
   Forall (fun i => (0 <= i < Z.of_nat (length adjoints))%Z) in_ids ->
   forall p id, in_ids !! p = Some id ->
     adjoint_read (reverse eigenStore d adjoints) id =
     Real_add (adjoint_read adjoints1 id) (nth p B_b_in Real_zero)).
Proof.
  intros HA HB Hlen Hg out_ids in_ids.
  assert (Hrev : reverse eigenStore d adjoints =
            setGradients adjoints1 (k d * m d) true (identifierIn (B_store d)) B_b_in).
  { unfold reverse. rewrite Hg, HA, HB. reflexivity. }
  unfold reverse_gradients in Hg.
  destruct (getGradients_loop_reset out_ids adjoints) as (HRlen & HRget & HRleft).
  pose proof (getGradients_loop_length true out_ids adjoints) as Hl.
  unfold getGradients in Hg. fold out_ids in Hg.
  destruct (getGradients_loop true out_ids adjoints) as [gs adj1] eqn:Hget.
  simpl in HRlen, HRget, HRleft, Hl.
  rewrite HA, HB in Hg. unfold callReverse in Hg. simpl in Hg.
  injection Hg as -> -> <- <-.
  split; [split; [exact HRlen|exact HRget]|].
  split; [split; [exact Hl|exact HRleft]|].
  split; [|split; [reflexivity|split; [exact Hrev|split]]].
  - intros l j Hl' Hj. unfold mapReal. by rewrite mapEigen_assign.
  - intros id HidB HidR. rewrite Hrev. unfold setGradients.
    rewrite setGradients_loop_other by done.
    rewrite HRleft. destruct (decide (id ∈ out_ids)); done.
  - intros Hnd Hrange p id Hp. rewrite Hrev. unfold setGradients.
    apply setGradients_loop_accumulates; [done| | |done].
    + by rewrite Hl.
    + rewrite assign_length. unfold in_ids. rewrite length_take. lia.
Qed.

(** X16: a forward replay reads the tangents of the active inputs from the
    vector without changing them, overwrites the slots of the output's
    identifiers with the tangents [callForward] computes and changes no
    other slot. *)
Theorem forward_replay (d : Restored) (adjoints : list Real) :
  let A_d_in :=
    if active_A d
    then adjoint_read adjoints <$> take (n d * k d) (identifierIn (A_store d))
    else gradientIn (A_store d) in
  let B_d_in :=
    if active_B d
    then adjoint_read adjoints <$> take (k d * m d) (identifierIn (B_store d))
    else gradientIn (B_store d) in
  let R_d_out :=
    snd (callForward eigenStore (value (A_store d)) (active_A d) A_d_in
           (value (B_store d)) (active_B d) B_d_in
           (value (R_store d)) (gradientOut (R_store d)) (n d) (k d) (m d)) in
  forward eigenStore d adjoints =
    setGradients adjoints (n d * m d) false (identifierOut (R_store d)) R_d_out /\
  length (forward eigenStore d adjoints) = length adjoints /\
  (forall id, id ∉ take (n d * m d) (identifierOut (R_store d)) ->
     adjoint_read (forward eigenStore d adjoints) id = adjoint_read adjoints id) /\
  (NoDup (take (n d * m d) (identifierOut (R_store d))) ->
   Forall (fun i => (0 <= i < Z.of_nat (length adjoints))%Z)
     (take (n d * m d) (identifierOut (R_store d))) ->
   n d * m d <= length (gradientOut (R_store d)) ->
   forall p id,
     take (n d * m d) (identifierOut (R_store d)) !! p = Some id ->
     adjoint_read (forward eigenStore d adjoints) id = nth p R_d_out Real_zero).
Proof.
  intros A_d_in B_d_in R_d_out.
  assert (Hf : forward eigenStore d adjoints =
            setGradients adjoints (n d * m d) false (identifierOut (R_store d))
              R_d_out).
  { unfold forward, getGradients. rewrite !getGradients_loop_read. simpl.
    reflexivity. }
  rewrite Hf. unfold setGradients.
  split; [reflexivity|]. split; [apply setGradients_loop_length|]. split.
  - intros id Hid. by apply setGradients_loop_other.
  - intros Hnd Hrange Hlen p id Hp.
    apply setGradients_loop_overwrites; [done|done| |done].
    subst R_d_out. unfold callForward. simpl.
    rewrite length_take.
    destruct (active_A d), (active_B d); rewrite ?assign_length; lia.
Qed.

(** *** Recording *)

Lemma setExternalFunctionOutput_values tapeActive size :
  forall value identifiers primals largest,
  length (fst (setExternalFunctionOutput tapeActive value size identifiers
                 primals largest)) = length value /\
  forall p, p < size -> p < length value ->
    primalValue <$>
      fst (setExternalFunctionOutput tapeActive value size identifiers primals
             largest) !! p =
    Some (nth p primals Real_zero).
Proof.
  induction size as [|size IH]; intros value identifiers primals largest.
  { simpl. split; [done|]. intros p Hp. lia. }
  destruct value as [|v value]; simpl.
  { split; [done|]. intros p _ Hp. simpl in Hp. lia. }
  set (largest' := if tapeActive && negb (hd 0%Z identifiers =? 0)%Z
                   then (largest + 1)%Z else largest).
  specialize (IH value (tl identifiers) (tl primals) largest').
  destruct (setExternalFunctionOutput tapeActive value size (tl identifiers)
              (tl primals) largest') as [rest l] eqn:Hrec.
  simpl in *. destruct IH as (Hlen & Hval).
  split; [by rewrite Hlen|].
  intros [|p] Hp Hpv.
  - simpl. by destruct primals.
  - change (primalValue <$> rest !! p = Some (nth (S p) primals Real_zero)).
    rewrite Hval by lia. destruct primals; [destruct p|]; reflexivity.
Qed.

(** X17: whether or not the call is recorded, [store] hands back in R the
    primal product of A and B. *)
Theorem store_primal_product (A B R : list ActiveType) (n k m : nat)
    (st : TapeState) :
  n * m <= length R ->
  length (snd (store eigenStore A B R n k m st)) = length R /\
  forall i j, i < n -> j < m ->
    primalValue <$>
      snd (store eigenStore A B R n k m st) !! storage_index eigenStore n m i j =
    Some (product (mapReal eigenStore (primalValue <$> A) n k)
            (mapReal eigenStore (primalValue <$> B) k m) k i j).
Proof.
  intros HR. unfold store.
  destruct (callPrimal eigenStore (isActive A (n * k) || isActive B (k * m))
              (input_value A (n * k)) (isActive A (n * k))
              (input_identifierIn A (n * k) (isActive A (n * k)))
              (input_value B (k * m)) (isActive B (k * m))
              (input_identifierIn B (k * m) (isActive B (k * m)))
              (replicate (n * m) Real_zero) (replicate (n * m) 0%Z) n k m)
    as [Rv Ri] eqn:Hcall.
  match goal with
  | |- context [setExternalFunctionOutput ?a R (n * m) Ri Rv ?l] =>
      destruct (setExternalFunctionOutput_values a (n * m) R Ri Rv l)
        as (Hlen & Hval);
      destruct (setExternalFunctionOutput a R (n * m) Ri Rv l) as [R' largest]
  end.
  simpl in *. split; [exact Hlen|].
  intros i j Hi Hj.
  pose proof (storage_index_lt eigenStore n m i j Hi Hj) as Hlt.
  rewrite Hval by lia. f_equal.
  change (nth (storage_index eigenStore n m i j) Rv Real_zero)
    with (mapReal eigenStore Rv n m i j).
  replace Rv with (fst (callPrimal eigenStore
                          (isActive A (n * k) || isActive B (k * m))
              (input_value A (n * k)) (isActive A (n * k))
              (input_identifierIn A (n * k) (isActive A (n * k)))
              (input_value B (k * m)) (isActive B (k * m))
              (input_identifierIn B (k * m) (isActive B (k * m)))
              (replicate (n * m) Real_zero) (replicate (n * m) 0%Z) n k m))
    by (by rewrite Hcall).
  unfold callPrimal. simpl. unfold mapReal at 1.
  rewrite mapEigen_assign by (rewrite ?length_replicate; lia).
  unfold product. apply dot_ext. intros l Hl.
  by rewrite !(mapReal_input_value eigenStore).
Qed.

Lemma store_active_state (A B R : list ActiveType) (n k m : nat) (st : TapeState) :
  isActive A (n * k) || isActive B (k * m) = true ->
  ID (fst (store eigenStore A B R n k m st)) = ID (registerOnTape st) /\
  registeredFunctions (fst (store eigenStore A B R n k m st)) =
    registeredFunctions (registerOnTape st) /\
  fst <$> (fst <$> lowLevelFunctions (fst (store eigenStore A B R n k m st))) =
    (fst <$> (fst <$> lowLevelFunctions st)) ++ [ID (registerOnTape st)] /\
  byteData (fst (store eigenStore A B R n k m st)) = byteData st ++ store_accesses.
Proof.
  intros Hact. unfold store. rewrite Hact.
  destruct (callPrimal _ _ _ _ _ _ _ _ _ _ _ _ _) as [Rv Ri].
  destruct (setExternalFunctionOutput _ _ _ _ _ _) as [R' largest]. simpl.
  split; [reflexivity|]. split; [reflexivity|].
  rewrite !fmap_app. simpl.
  unfold registerOnTape. destruct (_ =? _)%Z; done.
Qed.

(** X18: two recording calls on a tape on which the function is not yet
    registered register it once and push two records that carry the same
    token, each with the byte store accesses of [store]. *)
Theorem store_twice_registers_once (A B R A' B' R' : list ActiveType)
    (n k m n' k' m' : nat) (st : TapeState) :
  ID st = LowLevelFunctionTokenInvalid ->
  registerLowLevelFunction_token (registeredFunctions st) <>
    LowLevelFunctionTokenInvalid ->
  isActive A (n * k) || isActive B (k * m) = true ->
  isActive A' (n' * k') || isActive B' (k' * m') = true ->
  let st1 := fst (store eigenStore A B R n k m st) in
  let st2 := fst (store eigenStore A' B' R' n' k' m' st1) in
  let token := registerLowLevelFunction_token (registeredFunctions st) in
  ID st2 = token /\
  registeredFunctions st2 =
    registeredFunctions st ++
      [Entry (Some Callback_reverse) (Some Callback_forward) None
         (Some Callback_del)] /\
  fst <$> (fst <$> lowLevelFunctions st2) =
    (fst <$> (fst <$> lowLevelFunctions st)) ++ [token; token] /\
  byteData st2 = byteData st ++ store_accesses ++ store_accesses.
Proof.
  intros Hid Htok Hact Hact' st1 st2 token.
  destruct (store_active_state A B R n k m st Hact) as (H1 & H2 & H3 & H4).
  destruct (store_active_state A' B' R' n' k' m' st1 Hact') as (H1' & H2' & H3' & H4').
  fold st1 in H1, H2, H3, H4. fold st2 in H1', H2', H3', H4'.
  assert (Hr : registerOnTape st =
               mkState token
                 (registeredFunctions st ++
                    [Entry (Some Callback_reverse) (Some Callback_forward) None
                       (Some Callback_del)])
                 (lowLevelFunctions st) (byteData st) (indexManager_largest st)).
  { unfold registerOnTape. rewrite Hid, Z.eqb_refl. reflexivity. }
  rewrite Hr in H1, H2, H3. simpl in H1, H2, H3.
  assert (Hr1 : registerOnTape st1 = st1).
  { unfold registerOnTape. rewrite H1.
    destruct (Z.eqb_spec LowLevelFunctionTokenInvalid token); [|done].
    subst token. congruence. }
  rewrite Hr1 in H1', H2', H3'.
  split; [congruence|]. split; [congruence|]. split.
  - rewrite H3', H3, H1, <- app_assoc. reflexivity.
  - rewrite H4', H4, <- app_assoc. reflexivity.
Qed.

(** X19: when the token the tape returns is the sentinel itself,
    [registerOnTape] cannot tell that it has registered: the next call
    registers the function again. *)
Theorem registerOnTape_sentinel_token (st : TapeState) :
  ID st = LowLevelFunctionTokenInvalid ->
  registerLowLevelFunction_token (registeredFunctions st) =
    LowLevelFunctionTokenInvalid ->
  registeredFunctions (registerOnTape (registerOnTape st)) =
    registeredFunctions st ++
      [Entry (Some Callback_reverse) (Some Callback_forward) None
         (Some Callback_del);
       Entry (Some Callback_reverse) (Some Callback_forward) None
         (Some Callback_del)].
Proof.
  intros Hid Htok. unfold registerOnTape.
  rewrite Hid, Z.eqb_refl. simpl. rewrite Htok, Z.eqb_refl. simpl.
  by rewrite <- app_assoc.
Qed.

(** *** Forward and reverse mode agree *)

Section Laws.
Context {RL : @RealLaws RO}.

Lemma Real_add_0_r a : Real_add a Real_zero = a.
Proof. by rewrite Real_add_comm, Real_add_0_l. Qed.

Lemma Real_mul_0_l a : Real_mul Real_zero a = Real_zero.
Proof. by rewrite Real_mul_comm, Real_mul_0_r. Qed.

Lemma Real_add_swap a b c e :
  Real_add (Real_add a b) (Real_add c e) = Real_add (Real_add a c) (Real_add b e).
Proof.
  rewrite <- (Real_add_assoc a b), (Real_add_assoc b c e), (Real_add_comm b c).
  by rewrite <- (Real_add_assoc c b e), (Real_add_assoc a c).
Qed.

Lemma dot_S (f : nat -> Real) inner :
  dot f (S inner) = Real_add (dot f inner) (f inner).
Proof. unfold dot. by rewrite seq_S, foldl_app. Qed.

Lemma dot_ext2 (f g : nat -> nat -> Real) rows cols :
  (forall i j, i < rows -> j < cols -> f i j = g i j) ->
  dot (fun i => dot (f i) cols) rows = dot (fun i => dot (g i) cols) rows.
Proof. intros Hfg. apply dot_ext. intros i Hi. apply dot_ext. auto. Qed.

Lemma dot_zero inner : dot (fun _ => Real_zero) inner = Real_zero.
Proof.
  induction inner as [|inner IH]; [reflexivity|].
  by rewrite dot_S, IH, Real_add_0_l.
Qed.

Lemma dot2_zero (f : nat -> nat -> Real) rows cols :
  (forall i j, i < rows -> j < cols -> f i j = Real_zero) ->
  dot (fun i => dot (f i) cols) rows = Real_zero.
Proof.
  intros Hf.
  transitivity (dot (fun _ => Real_zero) rows); [|apply dot_zero].
  apply dot_ext. intros i Hi.
  transitivity (dot (fun _ => Real_zero) cols); [|apply dot_zero].
  apply dot_ext. auto.
Qed.

Lemma dot_add (f g : nat -> Real) inner :
  dot (fun l => Real_add (f l) (g l)) inner = Real_add (dot f inner) (dot g inner).
Proof.
  induction inner as [|inner IH].
  - unfold dot. simpl. by rewrite Real_add_0_l.
  - by rewrite !dot_S, IH, Real_add_swap.
Qed.

Lemma dot_mul_l a (f : nat -> Real) inner :
  Real_mul a (dot f inner) = dot (fun l => Real_mul a (f l)) inner.
Proof.
  induction inner as [|inner IH].
  - unfold dot. simpl. apply Real_mul_0_r.
  - by rewrite !dot_S, Real_mul_add_distr_l, IH.
Qed.

Lemma dot_mul_r a (f : nat -> Real) inner :
  Real_mul (dot f inner) a = dot (fun l => Real_mul (f l) a) inner.
Proof.
  rewrite Real_mul_comm, dot_mul_l. apply dot_ext. intros l _.
  apply Real_mul_comm.
Qed.

Lemma dot_exchange (f : nat -> nat -> Real) rows cols :
  dot (fun i => dot (fun j => f i j) cols) rows =
  dot (fun j => dot (fun i => f i j) rows) cols.
Proof.
  induction rows as [|rows IH].
  - unfold dot at 1. simpl. symmetry.
    rewrite <- (dot_zero cols). apply dot_ext. intros j _. reflexivity.
  - rewrite dot_S, IH, <- dot_add. apply dot_ext. intros j _.
    by rewrite dot_S.
Qed.

Lemma mapReal_zeros len rows cols i j :
  mapReal eigenStore (replicate len Real_zero) rows cols i j = Real_zero.
Proof.
  unfold mapReal, mapEigen. rewrite nth_lookup.
  destruct (replicate len Real_zero !! _) as [x|] eqn:Hx; [|reflexivity].
  apply lookup_replicate in Hx as [-> _]. reflexivity.
Qed.

(** X20: forward and reverse mode of the function are transposes of each
    other.  With tangents [A_d], [B_d] of the inputs and an adjoint [R_b] of
    the output, the output tangent [callForward] computes, paired with [R_b],
    equals the input adjoints [callReverse] computes, paired with the input
    tangents (all from zero-initialised arrays, for every choice of active
    inputs, in exact arithmetic). *)
Theorem forward_reverse_transposed A active_A A_d B active_B B_d R R_b n k m :
  let R_d :=
    snd (callForward eigenStore A active_A A_d B active_B B_d R
           (replicate (n * m) Real_zero) n k m) in
  let A_b :=
    fst (callReverse eigenStore A active_A (replicate (n * k) Real_zero)
           B active_B (replicate (k * m) Real_zero) R R_b n k m) in
  let B_b :=
    snd (callReverse eigenStore A active_A (replicate (n * k) Real_zero)
           B active_B (replicate (k * m) Real_zero) R R_b n k m) in
  frobenius (mapReal eigenStore R_b n m) (mapReal eigenStore R_d n m) n m =
  Real_add
    (frobenius (mapReal eigenStore A_b n k) (mapReal eigenStore A_d n k) n k)
    (frobenius (mapReal eigenStore B_b k m) (mapReal eigenStore B_d k m) k m).
Proof.
  intros R_d A_b B_b.
  set (Rb := mapReal eigenStore R_b n m).
  set (Av := mapReal eigenStore A n k). set (Bv := mapReal eigenStore B k m).
  set (Ad := mapReal eigenStore A_d n k). set (Bd := mapReal eigenStore B_d k m).
  set (tA := fun i j => if active_A
                        then dot (fun l => Real_mul (Ad i l) (Bv l j)) k
                        else Real_zero).
  set (tB := fun i j => if active_B
                        then dot (fun l => Real_mul (Av i l) (Bd l j)) k
                        else Real_zero).
  assert (HRd : forall i j, i < n -> j < m ->
            mapReal eigenStore R_d n m i j = Real_add (tA i j) (tB i j)).
  { intros i j Hi Hj. subst R_d tA tB. unfold callForward, mapReal. simpl.
    destruct active_A, active_B; unfold plus;
      rewrite ?mapEigen_assign by (rewrite ?assign_length, ?length_replicate; lia);
      fold (mapReal eigenStore (replicate (n * m) Real_zero) n m i j);
      rewrite ?mapReal_zeros, ?Real_add_0_l, ?Real_add_0_r; reflexivity. }
  assert (HAb : forall i l, i < n -> l < k ->
            mapReal eigenStore A_b n k i l =
            if active_A then dot (fun j => Real_mul (Rb i j) (Bv l j)) m
            else Real_zero).
  { intros i l Hi Hl. subst A_b. unfold callReverse. simpl.
    destruct active_A; [|apply mapReal_zeros].
    unfold mapReal at 1. rewrite mapEigen_assign by (rewrite ?length_replicate; lia).
    unfold plus. rewrite mapReal_zeros, Real_add_0_l. reflexivity. }
  assert (HBb : forall l j, l < k -> j < m ->
            mapReal eigenStore B_b k m l j =
            if active_B then dot (fun i => Real_mul (Av i l) (Rb i j)) n
            else Real_zero).
  { intros l j Hl Hj. subst B_b. unfold callReverse. simpl.
    destruct active_B; [|apply mapReal_zeros].
    unfold mapReal at 1. rewrite mapEigen_assign by (rewrite ?length_replicate; lia).
    unfold plus. rewrite mapReal_zeros, Real_add_0_l. reflexivity. }
  unfold frobenius. fold Rb.
  rewrite (dot_ext2 (fun i j => Real_mul (Rb i j) (mapReal eigenStore R_d n m i j))
             (fun i j => Real_add (Real_mul (Rb i j) (tA i j))
                           (Real_mul (Rb i j) (tB i j))))
    by (intros i j Hi Hj; by rewrite HRd, Real_mul_add_distr_l).
  rewrite (dot_ext (fun i => dot _ m)
             (fun i => Real_add (dot (fun j => Real_mul (Rb i j) (tA i j)) m)
                         (dot (fun j => Real_mul (Rb i j) (tB i j)) m)))
    by (intros i _; apply dot_add).
  rewrite dot_add. f_equal.
  - rewrite (dot_ext2 (fun i l => Real_mul (mapReal eigenStore A_b n k i l) _)
               (fun i l => if active_A
                           then dot (fun j => Real_mul (Rb i j)
                                               (Real_mul (Ad i l) (Bv l j))) m
                           else Real_zero)).
    2:{ intros i l Hi Hl. rewrite HAb by done. destruct active_A.
        - fold Ad. rewrite dot_mul_r. apply dot_ext. intros j _.
          by rewrite <- Real_mul_assoc, (Real_mul_comm (Bv l j)).
        - apply Real_mul_0_l. }
    subst tA. destruct active_A.
    + rewrite (dot_ext2 (fun i j => Real_mul (Rb i j) _)
                 (fun i j => dot (fun l => Real_mul (Rb i j)
                                            (Real_mul (Ad i l) (Bv l j))) k))
        by (intros; apply dot_mul_l).
      apply dot_ext. intros i _. apply dot_exchange.
    + transitivity Real_zero; [|symmetry]; apply dot2_zero; intros;
        [apply Real_mul_0_r|reflexivity].
  - rewrite (dot_ext2 (fun l j => Real_mul (mapReal eigenStore B_b k m l j) _)
               (fun l j => if active_B
                           then dot (fun i => Real_mul (Rb i j)
                                               (Real_mul (Av i l) (Bd l j))) n
                           else Real_zero)).
    2:{ intros l j Hl Hj. rewrite HBb by done. destruct active_B.
        - fold Bd. rewrite dot_mul_r. apply dot_ext. intros i _.
          by rewrite (Real_mul_comm (Av i l)), <- Real_mul_assoc.
        - apply Real_mul_0_l. }
    subst tB. destruct active_B.
    + rewrite (dot_ext2 (fun i j => Real_mul (Rb i j) _)
                 (fun i j => dot (fun l => Real_mul (Rb i j)
                                            (Real_mul (Av i l) (Bd l j))) k))
        by (intros; apply dot_mul_l).
      rewrite (dot_ext (fun i => dot _ m)
                 (fun i => dot (fun l => dot (fun j => Real_mul (Rb i j)
                                            (Real_mul (Av i l) (Bd l j))) m) k))
        by (intros i _; apply dot_exchange).
      rewrite dot_exchange.
      apply dot_ext. intros l _. apply dot_exchange.
    + transitivity Real_zero; [|symmetry]; apply dot2_zero; intros;
        [apply Real_mul_0_r|reflexivity].
Qed.

End Laws.

(** X21: the column major function is the row major function on the
    transposed problem: with a commutative multiplication, the result array
    of [callPrimal] for A (n x k) and B (k x m) stored column major is the
    result array for B (m x k) and A (k x n) stored row major. *)
Theorem callPrimal_storage_orders active A active_A A_i_in B active_B B_i_in
    active' active_A' A_i_in' active_B' B_i_in' R R_i_out R_i_out' n k m :
  (forall a b : Real, Real_mul a b = Real_mul b a) ->
  fst (callPrimal ColMajor active A active_A A_i_in B active_B B_i_in
         R R_i_out n k m) =
  fst (callPrimal RowMajor active' B active_B' B_i_in' A active_A' A_i_in'
         R R_i_out' m k n).
Proof.
  intros Hcomm. unfold callPrimal, assign. simpl.
  apply imap_ext. intros p x _. simpl.
  rewrite (Nat.mul_comm m n).
  destruct (p <? n * m); [|reflexivity].
  unfold product. apply dot_ext. intros l _.
  unfold mapReal, mapEigen. simpl. apply Hcomm.
Qed.


End Facts.

Lemma callPrimal_product_witness :
  fst (@callPrimal ZReal RowMajor false [1; 2; 3; 4]%Z false [] [5; 6; 7; 8]%Z
         false [] [0; 0; 0; 0]%Z [] 2 2 2) = [19; 22; 43; 50]%Z.
Proof.
  pose proof (@callPrimal_product ZReal RowMajor false [1; 2; 3; 4]%Z false []
                [5; 6; 7; 8]%Z false [] [0; 0; 0; 0]%Z [] 2 2 2) as Hp.
  destruct Hp as (_ & _ & _); [simpl; lia|]. reflexivity.
Defined.

Lemma callPrimal_marker_count_witness :
  (0 <= mapId RowMajor
          (snd (@callPrimal ZReal RowMajor true [1; 2; 3; 4] true [3; 0; 0; 0]
                  [5; 6; 7; 8] true [0; 4; 0; 0] [0; 0; 0; 0]
                  [0; 0; 0; 0] 2%nat 2%nat 2%nat)) 2%nat 2%nat 0%nat 1%nat <= 2)%Z.
Proof.
  refine (proj1 (@callPrimal_marker_count ZReal RowMajor [1; 2; 3; 4]%Z true
                   [3; 0; 0; 0]%Z [5; 6; 7; 8]%Z true [0; 4; 0; 0]%Z
                   [0; 0; 0; 0]%Z [0; 0; 0; 0]%Z 2 2 2 0 1 _ _ _)).
  - simpl. lia.
  - lia.
  - lia.
Defined.

Lemma callForward_coefficients_witness :
  mapReal RowMajor
    (fst (@callForward ZReal RowMajor [1; 2; 3; 4]%Z true [1; 0; 0; 0]%Z
            [5; 6; 7; 8]%Z false [] [0; 0; 0; 0]%Z [0; 0; 0; 0]%Z 2 2 2))
    2 2 1 1 = 50%Z.
Proof.
  refine (eq_trans (proj2 (@callForward_coefficients ZReal RowMajor
            [1; 2; 3; 4]%Z true [1; 0; 0; 0]%Z [5; 6; 7; 8]%Z false []
            [0; 0; 0; 0]%Z [0; 0; 0; 0]%Z 2 2 2 1 1 _ _ _ _)) _).
  - simpl. lia.
  - simpl. lia.
  - lia.
  - lia.
  - reflexivity.
Defined.

Lemma callReverse_coefficients_witness :
  mapReal RowMajor
    (snd (@callReverse ZReal RowMajor [1; 2; 3; 4]%Z false [] [5; 6; 7; 8]%Z
            true [0; 0; 0; 0]%Z [] [1; 2; 3; 4]%Z 2 2 2)) 2 2 0 0 = 10%Z.
Proof.
  pose proof (@callReverse_coefficients ZReal RowMajor [1; 2; 3; 4]%Z false []
                [5; 6; 7; 8]%Z true [0; 0; 0; 0]%Z [] [1; 2; 3; 4]%Z 2 2 2)
    as (_ & _ & _ & _ & _ & Hb).
  refine (eq_trans (Hb _ _ 0 0 _ _) _).
  - reflexivity.
  - simpl. lia.
  - lia.
  - lia.
  - reflexivity.
Defined.

Lemma reverse_frame_witness :
  adjoint_read
    (reverse RowMajor
       (ZRestored true false (ZStore [] [1; 2; 3; 4]%Z [0; 0; 0; 0]%Z [] [])
          (ZStore [5; 6; 7; 8]%Z [9; 9; 9; 9]%Z [] [] [])
          (ZStore [] [] [] [5; 6; 7; 8]%Z [0; 0; 0; 0]%Z) 2 2 2)
       [0; 0; 0; 0; 0; 1; 2; 3; 4; 77]%Z) 9 = 77%Z.
Proof.
  refine (proj1 (@reverse_frame ZReal RowMajor
            (ZRestored true false (ZStore [] [1; 2; 3; 4]%Z [0; 0; 0; 0]%Z [] [])
               (ZStore [5; 6; 7; 8]%Z [9; 9; 9; 9]%Z [] [] [])
               (ZStore [] [] [] [5; 6; 7; 8]%Z [0; 0; 0; 0]%Z) 2 2 2)
            [0; 0; 0; 0; 0; 1; 2; 3; 4; 77]%Z 9 _ _ _)).
  - intros Hin. apply list_elem_of_In in Hin. simpl in Hin. lia.
  - intros _ Hin. apply list_elem_of_In in Hin. simpl in Hin. lia.
  - discriminate.
Defined.

Lemma reverse_passive_A_active_B_witness :
  reverse RowMajor
    (ZRestored false true (ZStore [1; 2; 3; 4]%Z [] [] [] [])
       (ZStore [] [1; 2; 3; 4]%Z [0; 0; 0; 0]%Z [] [])
       (ZStore [] [] [] [5; 6; 7; 8]%Z [0; 0; 0; 0]%Z) 2 2 2)
    [0; 0; 0; 0; 0; 1; 2; 3; 4]%Z = [0; 10; 14; 14; 20; 0; 0; 0; 0]%Z.
Proof.
  destruct (@reverse_passive_A_active_B ZReal RowMajor
              (ZRestored false true (ZStore [1; 2; 3; 4]%Z [] [] [] [])
                 (ZStore [] [1; 2; 3; 4]%Z [0; 0; 0; 0]%Z [] [])
                 (ZStore [] [] [] [5; 6; 7; 8]%Z [0; 0; 0; 0]%Z) 2 2 2)
              [0; 0; 0; 0; 0; 1; 2; 3; 4]%Z
              [1; 2; 3; 4]%Z [0; 0; 0; 0; 0; 0; 0; 0; 0]%Z [] [10; 14; 14; 20]%Z)
    as (_ & _ & _ & _ & Hrev & _).
  - reflexivity.
  - reflexivity.
  - simpl. lia.
  - reflexivity.
  - rewrite Hrev. reflexivity.
Defined.

(** A forward replay of the record of the specification: A active with
    tangents 1, 0, 0, 0 at identifiers 1 to 4, B passive. *)
Example forward_replay_example :
  forward RowMajor
    (ZRestored true false (ZStore [] [1; 2; 3; 4]%Z [] [] [])
       (ZStore [5; 6; 7; 8]%Z [] [] [] [])
       (ZStore [0; 0; 0; 0]%Z [] [] [5; 6; 7; 8]%Z [0; 0; 0; 0]%Z) 2 2 2)
    [0; 1; 0; 0; 0; 9; 9; 9; 9]%Z = [0; 1; 0; 0; 0; 5; 6; 0; 0]%Z.
Proof. reflexivity. Qed.

Lemma store_primal_product_witness :
  primalValue <$>
    snd (store RowMajor [ZActive 1 1; ZActive 2 2; ZActive 3 0; ZActive 4 0]
           [ZActive 5 0; ZActive 6 0; ZActive 7 0; ZActive 8 0]
           [ZActive 0 0; ZActive 0 0; ZActive 0 0; ZActive 0 0] 2 2 2
           (ZState 65535 [] [] [] 2)) !! 3%nat = Some 50%Z.
Proof.
  refine (eq_trans (proj2 (@store_primal_product ZReal ExampleEnv RowMajor
            [ZActive 1 1; ZActive 2 2; ZActive 3 0; ZActive 4 0]
            [ZActive 5 0; ZActive 6 0; ZActive 7 0; ZActive 8 0]
            [ZActive 0 0; ZActive 0 0; ZActive 0 0; ZActive 0 0] 2 2 2
            (ZState 65535 [] [] [] 2) _) 1 1 _ _) _).
  - simpl. lia.
  - lia.
  - lia.
  - reflexivity.
Defined.

Lemma store_twice_registers_once_witness :
  registeredFunctions
    (fst (store RowMajor [ZActive 1 3; ZActive 2 0] [ZActive 5 0; ZActive 6 0]
            [ZActive 0 0] 1 2 1
            (fst (store RowMajor
                    [ZActive 1 1; ZActive 2 2; ZActive 3 0; ZActive 4 0]
                    [ZActive 5 0; ZActive 6 0; ZActive 7 0; ZActive 8 0]
                    [ZActive 0 0; ZActive 0 0; ZActive 0 0; ZActive 0 0] 2 2 2
                    (ZState 65535 [] [] [] 2))))) =
  [Entry (Some Callback_reverse) (Some Callback_forward) None (Some Callback_del)].
Proof.
  refine (proj1 (proj2 (@store_twice_registers_once ZReal ExampleEnv RowMajor
            [ZActive 1 1; ZActive 2 2; ZActive 3 0; ZActive 4 0]
            [ZActive 5 0; ZActive 6 0; ZActive 7 0; ZActive 8 0]
            [ZActive 0 0; ZActive 0 0; ZActive 0 0; ZActive 0 0]
            [ZActive 1 3; ZActive 2 0] [ZActive 5 0; ZActive 6 0] [ZActive 0 0]
            2 2 2 1 2 1 (ZState 65535 [] [] [] 2) _ _ _ _))).
  - reflexivity.
  - vm_compute. discriminate.
  - reflexivity.
  - reflexivity.
Defined.

Lemma registerOnTape_sentinel_token_witness :
  length (registeredFunctions
            (@registerOnTape TwoBitEnv
               (@registerOnTape TwoBitEnv
                  (ZState 3 (replicate 3 (Entry None None None None)) [] [] 0)))) = 5.
Proof.
  rewrite (@registerOnTape_sentinel_token TwoBitEnv
             (ZState 3 (replicate 3 (Entry None None None None)) [] [] 0)).
  - reflexivity.
  - reflexivity.
  - reflexivity.
Defined.

Lemma forward_reverse_transposed_witness :
  frobenius (mapReal RowMajor [1; 2; 3; 4]%Z 2 2)
    (mapReal RowMajor
       (snd (@callForward ZReal RowMajor [1; 2; 3; 4]%Z true [1; 0; 2; 0]%Z
               [5; 6; 7; 8]%Z true [0; 1; 0; 3]%Z [] (replicate (2 * 2) 0%Z)
               2 2 2)) 2 2) 2 2 =
  (frobenius
     (mapReal RowMajor
        (fst (@callReverse ZReal RowMajor [1; 2; 3; 4]%Z true
                (replicate (2 * 2) 0%Z) [5; 6; 7; 8]%Z true
                (replicate (2 * 2) 0%Z) [] [1; 2; 3; 4]%Z 2 2 2)) 2 2)
     (mapReal RowMajor [1; 0; 2; 0]%Z 2 2) 2 2 +
   frobenius
     (mapReal RowMajor
        (snd (@callReverse ZReal RowMajor [1; 2; 3; 4]%Z true
                (replicate (2 * 2) 0%Z) [5; 6; 7; 8]%Z true
                (replicate (2 * 2) 0%Z) [] [1; 2; 3; 4]%Z 2 2 2)) 2 2)
     (mapReal RowMajor [0; 1; 0; 3]%Z 2 2) 2 2)%Z.
Proof.
  exact (@forward_reverse_transposed ZReal RowMajor ZRealLaws
           [1; 2; 3; 4]%Z true [1; 0; 2; 0]%Z [5; 6; 7; 8]%Z true [0; 1; 0; 3]%Z
           [] [1; 2; 3; 4]%Z 2 2 2).
Defined.

Lemma callPrimal_storage_orders_witness :
  fst (@callPrimal ZReal ColMajor false [1; 2; 3; 4; 5; 6]%Z false []
         [7; 8; 9]%Z false [] [0; 0]%Z [] 2 3 1) =
  fst (@callPrimal ZReal RowMajor false [7; 8; 9]%Z false []
         [1; 2; 3; 4; 5; 6]%Z false [] [0; 0]%Z [] 1 3 2).
Proof.
  exact (@callPrimal_storage_orders ZReal false [1; 2; 3; 4; 5; 6]%Z
           false [] [7; 8; 9]%Z false [] false false [] false [] [0; 0]%Z [] []
           2 3 1 Z.mul_comm).
Defined.

End ExtFuncMore.

(** ** The increment operator test *)

Module TestIncrementOperatorsFacts.

Import TestIncrementOperators.

Section Facts.
Context {Number : Type} (increment decrement : Number -> Number).

(** X22: [func] needs one input and eight outputs.  With them, the outputs
    of the two prefix operators and the variables they changed hold the
    changed value, the outputs of the two postfix operators hold the input
    and only the variables they changed hold the changed value; the rest of
    [y] is left alone.  With no input or fewer than eight outputs an access
    is outside its array. *)
Theorem func_outputs (x y : list Number) :
  func increment decrement x y =
  match x with
  | [] => None
  | x0 :: _ =>
      if decide (8 <= length y)
      then Some ([increment x0; increment x0; increment x0; x0;
                  decrement x0; decrement x0; decrement x0; x0] ++ drop 8 y)
      else None
  end.
Proof.
  destruct x as [|x0 x]; [reflexivity|].
  do 8 (destruct y as [|? y]; [reflexivity|]).
  simpl length. case_decide; [|lia].
  unfold func, prefix_op, postfix_op, read, write. simpl.
  repeat (case_decide; [|lia]; simpl). reflexivity.
Qed.

End Facts.

End TestIncrementOperatorsFacts.
